(** * frkhash: the proof-of-work engine of go-expanse

    A shallow embedding of [consensus/frkhash]: the hashing function
    [frankomoto] of algorithm.go and the engine of frkhash.go (construction,
    [Close], [Threads], [SetThreads], [Hashrate]), together with a model of
    the remote sealer the engine talks to.

    Layout: the definitions first (Keccak; algorithm.go; the mixing loop as
    the specification words it; the data of the engine; the remote sealer;
    frkhash.go on one engine, under several callers of [Close], and on the
    engines of a process; test data), then the theorems. *)

From Stdlib Require Import NArith ZArith List Lia Bool Floats.
From Stdlib.Strings Require Import Byte.
From stdpp Require Import base option list strings gmap.
Import ListNotations.

(* ===================================================================== *)
(** ** Keccak (crypto.Keccak256, crypto.Keccak512)

    [frankomoto] calls [crypto.Keccak512] and [crypto.Keccak256], which live
    in another package.  Both are the original Keccak sponge (multi-rate
    padding 0x01 .. 0x80, not the SHA-3 domain byte) over the permutation
    Keccak-f[1600].  The permutation is written lane-wise, a lane being a
    64-bit word held in [N].  The vector of algorithm_test.go checks the
    whole of it ([TestFrankomoto_run] below). *)
(* ===================================================================== *)

Module Keccak.
Local Open Scope N_scope.

Definition lane := N.

Definition mask64 : N := 0xFFFFFFFFFFFFFFFF.

(** Rotation of a 64-bit word to the left; the bits shifted out at the top
    are cut by the mask and come back at the bottom. *)
Definition rotl64 (x : lane) (n : N) : lane :=
  N.lor (N.land (N.shiftl x n) mask64) (N.shiftr x (64 - n)).

Definition not64 (x : lane) : lane := N.lxor x mask64.

(** The 24 round constants. *)
Definition RC : list lane :=
  [ 0x0000000000000001; 0x0000000000008082; 0x800000000000808A;
    0x8000000080008000; 0x000000000000808B; 0x0000000080000001;
    0x8000000080008081; 0x8000000000008009; 0x000000000000008A;
    0x0000000000000088; 0x0000000080008009; 0x000000008000000A;
    0x000000008000808B; 0x800000000000008B; 0x8000000000008089;
    0x8000000000008003; 0x8000000000008002; 0x8000000000000080;
    0x000000000000800A; 0x800000008000000A; 0x8000000080008081;
    0x8000000000008080; 0x0000000080000001; 0x8000000080008008 ].

(** Rotation offsets of the rho step; lane (x, y) sits at index x + 5 y. *)
Definition rotc : list N :=
  [ 0;  1;  62; 28; 27;
    36; 44; 6;  55; 20;
    3;  10; 43; 25; 39;
    41; 45; 15; 21; 8;
    18; 2;  61; 56; 14 ].

(** The state: 25 lanes. *)
Definition state := list lane.

Definition get (st : state) (x y : nat) : lane :=
  nth (x mod 5 + 5 * (y mod 5))%nat st 0.

Definition lanes (f : nat -> nat -> lane) : state :=
  map (fun i => f (i mod 5)%nat (i / 5)%nat) (seq 0 25).

Definition theta (a : state) : state :=
  let c x := N.lxor (get a x 0)
            (N.lxor (get a x 1)
            (N.lxor (get a x 2)
            (N.lxor (get a x 3) (get a x 4)))) in
  let d x := N.lxor (c (x + 4)%nat) (rotl64 (c (x + 1)%nat) 1) in
  lanes (fun x y => N.lxor (get a x y) (d x)).

Definition rho_pi (a : state) : state :=
  lanes (fun x y =>
    let x' := ((x + 3 * y) mod 5)%nat in
    rotl64 (get a x' x) (nth (x' + 5 * x)%nat rotc 0)).

Definition chi (b : state) : state :=
  lanes (fun x y =>
    N.lxor (get b x y) (N.land (not64 (get b (x + 1) y)) (get b (x + 2) y))).

Definition iota (rc : lane) (a : state) : state :=
  lanes (fun x y =>
    match x, y with
    | O, O => N.lxor (get a 0 0) rc
    | _, _ => get a x y
    end).

Definition round (a : state) (rc : lane) : state :=
  iota rc (chi (rho_pi (theta a))).

Definition keccakF1600 (a : state) : state := fold_left round RC a.

(** Bytes and lanes: a lane is read and written little-endian. *)
Definition byte_of_N (n : N) : byte :=
  match Byte.of_N (n mod 256) with
  | Some b => b
  | None => x00
  end.

Definition lane_of_bytes (bs : list byte) : lane :=
  fold_right (fun b acc => Byte.to_N b + 256 * acc) 0 bs.

Definition bytes_of_lane (l : lane) : list byte :=
  map (fun i => byte_of_N (N.shiftr l (8 * N.of_nat i))) (seq 0 8).

(** [chunks fuel n bs] cuts [bs] into pieces of [n] bytes (the last one may be
    shorter); [fuel] bounds the number of pieces. *)
Fixpoint chunks (fuel n : nat) (bs : list byte) : list (list byte) :=
  match fuel with
  | O => []
  | S fuel' =>
      match bs with
      | [] => []
      | _ => firstn n bs :: chunks fuel' n (skipn n bs)
      end
  end.

Definition xor_block (st : state) (blk : list byte) : state :=
  let ls := map lane_of_bytes (chunks (length blk) 8 blk) in
  map (fun i => N.lxor (nth i st 0) (nth i ls 0)) (seq 0 25).

(** Multi-rate padding: 0x01, zeros, 0x80, the two merged into 0x81 when a
    single byte is missing. *)
Definition pad (rate : nat) (msg : list byte) : list byte :=
  let q := (rate - length msg mod rate)%nat in
  match q with
  | 1%nat => msg ++ [x81]
  | _ => msg ++ [x01] ++ repeat x00 (q - 2) ++ [x80]
  end.

Definition absorb (rate : nat) (msg : list byte) : state :=
  fold_left (fun st blk => keccakF1600 (xor_block st blk))
            (chunks (length msg + rate) rate (pad rate msg))
            (repeat 0 25).

Definition state_bytes (st : state) : list byte :=
  flat_map (fun i => bytes_of_lane (nth i st 0)) (seq 0 25).

(** The sponge with a rate of [rate] bytes and an output of [outlen] bytes
    (both outputs used here fit in one squeeze). *)
Definition sponge (rate outlen : nat) (msg : list byte) : list byte :=
  firstn outlen (state_bytes (absorb rate msg)).

(** Modelled from the spec: [crypto.Keccak256], missing from the sources; the
    specification names the hash ("keccak-hash"), the Keccak submission
    defines it: rate 136 bytes, output 32 bytes. *)
Definition Keccak256 : list byte -> list byte := sponge 136 32.

(** Modelled from the spec: [crypto.Keccak512], missing from the sources:
    rate 72 bytes, output 64 bytes ("hash to a 64-byte seed"). *)
Definition Keccak512 : list byte -> list byte := sponge 72 64.

End Keccak.

(* ===================================================================== *)
(** ** algorithm.go *)
(* ===================================================================== *)

Module Algorithm.
Import Keccak.

(** The constants of algorithm.go. *)
Definition datasetInitBytes   : N := 2 ^ 30.
Definition datasetGrowthBytes : N := 2 ^ 23.
Definition cacheInitBytes     : N := 2 ^ 24.
Definition cacheGrowthBytes   : N := 2 ^ 17.
Definition epochLength        : N := 30000.
Definition mixBytes           : N := 128.
Definition hashBytes          : N := 64.
Definition hashWords          : N := 16.
Definition datasetParents     : N := 256.
Definition cacheRounds        : N := 3.
Definition loopAccesses       : N := 64.

(** [make([]byte, n)]: a slice of [n] zero bytes. *)
Definition make (n : nat) : list byte := repeat x00 n.

(** [copy(dst, src)]: the first min(len dst, len src) bytes of [dst] are
    overwritten by those of [src]; the rest of [dst] stays. *)
Definition copy (dst src : list byte) : list byte :=
  let n := Nat.min (length dst) (length src) in
  firstn n src ++ skipn n dst.

(** The eight bytes [binary.LittleEndian.PutUint64] writes for [v]: byte i is
    [byte(v >> (8*i))], so only the low 64 bits of [v] count. *)
Definition littleEndian64 (v : N) : list byte :=
  map (fun i => byte_of_N (N.shiftr v (8 * N.of_nat i))) (seq 0 8).

(** [binary.LittleEndian.PutUint64(b[off:], v)] as an update of [b]; the call
    panics when fewer than eight bytes are left, hence the option. *)
Definition PutUint64 (b : list byte) (off : nat) (v : N) : option (list byte) :=
  if (off + 8 <=? length b)%nat
  then Some (firstn off b ++ littleEndian64 v ++ skipn (off + 8) b)
  else None.

(** [frankomoto(hash, nonce)], statement by statement.  [None] stands for a
    run-time panic: [PutUint64] on fewer than eight bytes, or the slice
    expression [digest[32:]] on a digest shorter than 32 bytes. *)
Definition frankomoto (hash : list byte) (nonce : N)
  : option (list byte * list byte) :=
  (* digest := make([]byte, 40); copy(digest, hash) *)
  let digest := make 40 in
  let digest := copy digest hash in
  (* binary.LittleEndian.PutUint64(digest[32:], nonce) *)
  match PutUint64 digest 32 nonce with
  | None => None
  | Some digest =>
      (* digest = crypto.Keccak512(digest) *)
      let digest := Keccak512 digest in
      (* d1 := digest[32:] *)
      if (32 <=? length digest)%nat then
        let d1 := skipn 32 digest in
        (* return d1, crypto.Keccak256(digest) *)
        Some (d1, Keccak256 digest)
      else None
  end.

(** The 40 bytes [frankomoto] hashes into the seed: 32 bytes of [hash]
    (zero-filled if it is shorter) and the nonce. *)
Definition seed_input (hash : list byte) (nonce : N) : list byte :=
  firstn 32 (copy (make 40) hash) ++ littleEndian64 nonce.

End Algorithm.

(* ===================================================================== *)
(** ** The mixing loop as the specification words it

    The specification describes the hash mixer as a memory-hard loop over a
    lookup structure.  [SpecMixer.mix] follows those words, so that it can be
    compared with [Algorithm.frankomoto], which is what the code runs.  Where
    the words leave a detail open (how the row index is derived, how 64-byte
    rows fill the 128-byte buffer) the definition takes the hashimoto loop of
    ethash, which is where the wording and the constants [mixBytes] and
    [loopAccesses] come from. *)
(* ===================================================================== *)

Module SpecMixer.
Import Keccak Algorithm.
Local Open Scope N_scope.

(** A 32-bit word, read little-endian from four bytes. *)
Definition word_of_bytes (bs : list byte) : N :=
  fold_right (fun b acc => Byte.to_N b + 256 * acc) 0 (firstn 4 bs).

Definition bytes_of_word (w : N) : list byte :=
  map (fun i => byte_of_N (N.shiftr w (8 * N.of_nat i))) (seq 0 4).

(** The words of a byte string whose length is a multiple of four. *)
Definition words (bs : list byte) : list N :=
  map (fun i => word_of_bytes (skipn (4 * i) bs)) (seq 0 (length bs / 4)).

(** The FNV-style mix of two 32-bit words. *)
Definition fnv (a b : N) : N := N.lxor ((a * 0x01000193) mod 2 ^ 32) b.

(** "combine it into the mix buffer with an FNV-style per-word mix" *)
Definition fnvHash (mix data : list N) : list N :=
  map (fun i => fnv (nth i mix 0) (nth i data 0)) (seq 0 (length mix)).

(** One of the [loopAccesses] rounds: "derive a pseudo-random row index from
    the current mix state and the lookup-structure size, fetch the row via
    lookup, combine it into the mix buffer". *)
Definition access (rows seedHead : N) (lookup : N -> list N)
  (mix : list N) (i : nat) : list N :=
  let parent :=
    (fnv (N.lxor (N.of_nat i) seedHead) (nth (i mod length mix) mix 0)) mod rows in
  let temp :=
    flat_map (fun j => lookup ((2 * parent + N.of_nat j) mod 2 ^ 32))
             (seq 0 (N.to_nat (mixBytes / hashBytes))) in
  fnvHash mix temp.

(** "compress the mix buffer to 32 bytes by FNV-folding groups of words" *)
Definition compress (mix : list N) : list N :=
  map (fun k =>
         let i := (4 * k)%nat in
         fnv (fnv (fnv (nth i mix 0) (nth (i + 1) mix 0)) (nth (i + 2) mix 0))
             (nth (i + 3) mix 0))
      (seq 0 (length mix / 4)).

(** "concatenate headerHash (32 bytes) and little-endian nonce (8 bytes),
    hash to a 64-byte seed" *)
Definition seed_of (headerHash : list byte) (nonce : N) : list byte :=
  Keccak512 (firstn 32 headerHash ++ littleEndian64 nonce).

(** The mix buffer after tiling, the [loopAccesses] rounds and the fold to
    32 bytes, over a lookup structure of [size] bytes. *)
Definition compressed_mix (size : N) (lookup : N -> list N)
  (headerHash : list byte) (nonce : N) : list byte :=
  let seed := seed_of headerHash nonce in
  let rows := (size / mixBytes) mod 2 ^ 32 in
  let seedHead := word_of_bytes seed in
  (* "expand the seed into a working mix buffer of mixBytes bytes by tiling" *)
  let m0 := map (fun i => nth (i mod 16) (words seed) 0)
                (seq 0 (N.to_nat (mixBytes / 4))) in
  (* "repeat loopAccesses times" *)
  let m := fold_left (access rows seedHead lookup)
                     (seq 0 (N.to_nat loopAccesses)) m0 in
  flat_map bytes_of_word (compress m).

(** [mix(headerHash, nonce, lookup) -> (digest, result)]:
    "keccak-hash (seed ++ compressed-mix) to produce the 32-byte digest";
    "result is the hash of the full original 64-byte seed-derived data run
    through a byte-reducing hash". *)
Definition mix (size : N) (lookup : N -> list N)
  (headerHash : list byte) (nonce : N) : list byte * list byte :=
  let seed := seed_of headerHash nonce in
  (Keccak256 (seed ++ compressed_mix size lookup headerHash nonce),
   Keccak256 seed).

End SpecMixer.

(* ===================================================================== *)
(** ** Data of the engine (frkhash.go) *)
(* ===================================================================== *)

Module Types.
Import Keccak Algorithm.

(** [ethash.Mode] with the five constants frkhash.go declares. *)
Inductive Mode := ModeNormal | ModeShared | ModeTest | ModeFake | ModeFullFake.

#[global] Instance Mode_eq_dec : EqDecision Mode.
Proof. solve_decision. Defined.

(** [Config]; the logger and the XIP5 block are read by none of the functions
    below and are left out. *)
Record Config := mkConfig { PowMode : Mode; NotifyFull : bool }.

(** [common.Hash]. *)
Definition Hash := list byte.

#[global] Instance byte_eq_dec : EqDecision byte := Byte.byte_eq_dec.
#[global] Instance byte_countable : Countable byte :=
  inj_countable Byte.to_N Byte.of_N Byte.of_to_N.

(** The errors the tests name. *)
Inductive error := errNoMiningWork | errEthashStopped | InvalidProofOfWork.

#[global] Instance error_eq_dec : EqDecision error.
Proof. solve_decision. Defined.

(** What a call does: it returns, it panics (nil dereference, close of a
    closed channel) or it blocks for ever. *)
Inductive outcome (A : Type) : Type :=
| Ok (a : A)
| Panic
| Blocked.
Arguments Ok {A} a.
Arguments Panic {A}.
Arguments Blocked {A}.

#[global] Instance outcome_ret : MRet outcome := @Ok.

#[global] Instance outcome_bind : MBind outcome := fun A B k m =>
  match m with
  | Ok a => k a
  | Panic => Panic
  | Blocked => Blocked
  end.

#[global] Instance outcome_fmap : FMap outcome := fun A B f m =>
  match m with
  | Ok a => Ok (f a)
  | Panic => Panic
  | Blocked => Blocked
  end.

(** Modelled from the spec: [types.Header], missing from the sources, with
    the "header fields consumed: block Number, Difficulty, Nonce, MixDigest,
    and a sealing hash (header serialization excluding Nonce/MixDigest)
    supplied by an external header-hashing collaborator".  [SealHash] stands
    for all the other header fields. *)
Record Header := mkHeader {
  Number : Z;
  Difficulty : Z;
  Nonce : N;
  MixDigest : Hash;
  SealHash : Hash
}.

(** The header with nonce and mix digest filled in; the sealing hash does
    not cover them. *)
Definition with_seal (h : Header) (nonce : N) (mixDigest : Hash) : Header :=
  {| Number := Number h; Difficulty := Difficulty h;
     Nonce := nonce; MixDigest := mixDigest; SealHash := SealHash h |}.

(** Modelled from the spec: [metrics.Meter], missing from the sources; "only
    the meter-read contract is used": the reading [Rate1()] takes. *)
Record Meter := mkMeter { Rate1 : float }.

(** Modelled from the spec: [metrics.NewMeterForced()], missing from the
    sources: a meter that has seen nothing yet. *)
Definition NewMeterForced : Meter := {| Rate1 := 0%float |}.

(** [float64(x)] for a [uint64]: rounding to the nearest binary64. *)
Definition float_of_uint64 (u : N) : float :=
  SF2Prim (binary_normalize prec emax (Z.of_N (u mod 2 ^ 64)) 0 false).

(** The unbuffered channel [update]: whether a Seal is parked receiving on it
    and how many values have been handed over. *)
Record chan := mkChan { receiver : bool; delivered : nat }.

(** Modelled from the spec: the work package, missing from the sources:
    "{sealHash, seedHash, target (256-bit integer), blockNumber}". *)
Record WorkPackage := mkWork {
  wSealHash : Hash;
  wSeedHash : Hash;
  wTarget : Z;
  wBlockNumber : Z
}.

(** Modelled from the spec: a hash-rate entry, missing from the sources:
    "{minerID, rate, lastRefreshed timestamp}", kept under its miner. *)
Record HashrateEntry := mkRate { rate : N; lastRefreshed : Z }.

(** Modelled from the spec: [remoteSealer], missing from the sources
    (sealer.go).  frkhash.go touches three of its channels: [requestExit]
    (closed by [Close]), [exitCh] (closed by the sealer's loop when it
    leaves) and [fetchRateCh], on which [Hashrate] asks for the aggregate; a
    closed channel is [true].  The rest is the state the loop owns: the
    current work package per outstanding block number, the packages still
    solvable by seal hash (current and superseded), the most recently pushed
    package, the hash-rate registry by miner, the notification endpoints and
    the result sink. *)
Record remoteSealer := mkSealer {
  requestExit : bool;
  exitCh : bool;
  current : gmap Z WorkPackage;
  solvable : gmap Hash Header;
  latest : option WorkPackage;
  rates : gmap Hash HashrateEntry;
  notify : list string;
  results : list Header
}.

(** Addresses of engines: [*Frkhash]. *)
Definition loc := nat.

(** [Frkhash].  [rand] is used by the nonce search only and is left out.
    [None] is a nil pointer, channel or interface. *)
Record Frkhash := mkFrkhash {
  config : Config;
  threads : Z;
  update : option chan;
  hashrate : option Meter;
  remote : option remoteSealer;
  shared : option loc;
  fakeFail : N;
  fakeDelay : Z;
  lock : bool;
  closeOnce : bool
}.

Definition set_threads (n : Z) (e : Frkhash) : Frkhash :=
  mkFrkhash (config e) n (update e) (hashrate e) (remote e) (shared e)
            (fakeFail e) (fakeDelay e) (lock e) (closeOnce e).

Definition set_update (c : option chan) (e : Frkhash) : Frkhash :=
  mkFrkhash (config e) (threads e) c (hashrate e) (remote e) (shared e)
            (fakeFail e) (fakeDelay e) (lock e) (closeOnce e).

Definition set_hashrate (m : option Meter) (e : Frkhash) : Frkhash :=
  mkFrkhash (config e) (threads e) (update e) m (remote e) (shared e)
            (fakeFail e) (fakeDelay e) (lock e) (closeOnce e).

Definition set_remote (r : option remoteSealer) (e : Frkhash) : Frkhash :=
  mkFrkhash (config e) (threads e) (update e) (hashrate e) r (shared e)
            (fakeFail e) (fakeDelay e) (lock e) (closeOnce e).

Definition set_shared (p : option loc) (e : Frkhash) : Frkhash :=
  mkFrkhash (config e) (threads e) (update e) (hashrate e) (remote e) p
            (fakeFail e) (fakeDelay e) (lock e) (closeOnce e).

Definition set_lock (b : bool) (e : Frkhash) : Frkhash :=
  mkFrkhash (config e) (threads e) (update e) (hashrate e) (remote e) (shared e)
            (fakeFail e) (fakeDelay e) b (closeOnce e).

Definition set_closeOnce (b : bool) (e : Frkhash) : Frkhash :=
  mkFrkhash (config e) (threads e) (update e) (hashrate e) (remote e) (shared e)
            (fakeFail e) (fakeDelay e) (lock e) b.

(** The zero value [Frkhash{}]. *)
Definition zeroFrkhash : Frkhash :=
  {| config := {| PowMode := ModeNormal; NotifyFull := false |};
     threads := 0; update := None; hashrate := None; remote := None;
     shared := None; fakeFail := 0; fakeDelay := 0;
     lock := false; closeOnce := false |}.

End Types.

(* ===================================================================== *)
(** ** The remote sealer (the coordinator of detached miners)

    sealer.go is not among the sources; the operations below are written
    from the specification's section on the remote coordinator. *)
(* ===================================================================== *)

Module Remote.
Import Keccak Algorithm Types.

(** Modelled from the spec: the expiry window of a hash-rate entry, missing
    from the sources.  The specification gives its order only ("a few
    seconds"); no theorem below depends on the value. *)
Definition expiryWindow : Z := 10.

(** Modelled from the spec: the seed hash of a block's epoch, missing from the
    sources: "the result of chaining a one-way hash function over a zero seed
    exactly epoch times", the epoch being floor(blockNumber / epochLength). *)
Definition seedHash (blockNumber : Z) : Hash :=
  Nat.iter (Z.to_nat (blockNumber / Z.of_N epochLength)) Keccak256 (make 32).

(** [two256], a big integer representing 2^256 (frkhash.go). *)
Definition two256 : Z := 2 ^ 256.

(** Modelled from the spec: the target of a difficulty, missing from the
    sources: "target = 2^256 / difficulty". *)
Definition target (difficulty : Z) : Z := two256 / difficulty.

(** Modelled from the spec: [startRemoteSealer], missing from the sources: a
    running coordinator that has issued no work and heard of no miner.  The
    specification does not say what [noverify] changes; every submission is
    verified. *)
Definition startRemoteSealer (endpoints : list string) (noverify : bool)
  : remoteSealer :=
  {| requestExit := false; exitCh := false;
     current := ∅; solvable := ∅; latest := None; rates := ∅;
     notify := endpoints; results := [] |}.

(** Whether the loop has left: [exitCh] is closed. *)
Definition exited (s : remoteSealer) : bool := exitCh s.

(** Modelled from the spec: [pushWork(header)], missing from the sources:
    "compute sealHash/target/blockNumber; if a package for that blockNumber
    already exists, replace it (the old package remains solvable until
    explicitly pruned, not immediately discarded)".  Delivery to the
    notification endpoints is fire-and-forget and leaves no trace in the
    state.  A coordinator that has left takes no work. *)
Definition pushWork (h : Header) (s : remoteSealer) : remoteSealer :=
  if exited s then s
  else
    let w := {| wSealHash := SealHash h; wSeedHash := seedHash (Number h);
                wTarget := target (Difficulty h); wBlockNumber := Number h |} in
    mkSealer (requestExit s) (exitCh s)
             (<[Number h := w]> (current s))
             (<[SealHash h := h]> (solvable s))
             (Some w) (rates s) (notify s) (results s).

(** Modelled from the spec: [currentWork()], missing from the sources:
    "returns the most recently pushed package; error NoMiningWork if none has
    ever been pushed; error EngineStopped if the coordinator has exited". *)
Definition currentWork (s : remoteSealer) : error + WorkPackage :=
  if exited s then inl errEthashStopped
  else match latest s with
       | None => inl errNoMiningWork
       | Some w => inr w
       end.

(** Modelled from the spec: [submitWork(nonce, sealHash, mixDigest)], missing
    from the sources: "look up a package (current or recently superseded)
    matching sealHash; absent -> false.  Present -> reconstruct a header
    carrying nonce/mixDigest and run full VerifySeal; success -> deliver the
    completed header to the engine's result sink exactly once, remove the
    package's solvable state, return true; verification failure -> return
    false, package remains solvable".  [verify] is the engine's VerifySeal. *)
Definition submitWork (verify : Header -> bool)
  (nonce : N) (sealHash mixDigest : Hash) (s : remoteSealer)
  : bool * remoteSealer :=
  if exited s then (false, s)
  else match solvable s !! sealHash with
       | None => (false, s)
       | Some h =>
           let h' := with_seal h nonce mixDigest in
           if verify h' then
             (true, mkSealer (requestExit s) (exitCh s) (current s)
                             (delete sealHash (solvable s))
                             (latest s) (rates s) (notify s)
                             (results s ++ [h']))
           else (false, s)
       end.

(** Modelled from the spec: [submitHashrate(minerID, rate)], missing from the
    sources: "upsert the entry with a refreshed timestamp; always returns true
    unless the coordinator has stopped, in which case false". *)
Definition submitHashrate (minerID : Hash) (r : N) (now : Z) (s : remoteSealer)
  : bool * remoteSealer :=
  if exited s then (false, s)
  else (true, mkSealer (requestExit s) (exitCh s) (current s) (solvable s)
                       (latest s)
                       (<[minerID := {| rate := r; lastRefreshed := now |}]> (rates s))
                       (notify s) (results s)).

(** Modelled from the spec: "entries older than a short expiry window are
    treated as stale". *)
Definition fresh_entry (now : Z) (e : HashrateEntry) : bool :=
  (now - lastRefreshed e <=? expiryWindow)%Z.

(** Modelled from the spec: the "sum of rate values" of a registry, in the
    unsigned 64-bit integer the aggregate is returned in. *)
Definition total_rate (m : gmap Hash HashrateEntry) : N :=
  map_fold (fun _ e acc => ((acc + rate e) mod 2 ^ 64)%N) 0%N m.

(** Modelled from the spec: [aggregateHashrate()], missing from the sources:
    "sum of rate values for entries refreshed within the expiry window; stale
    entries are dropped lazily during this query". *)
Definition aggregateHashrate (now : Z) (s : remoteSealer) : N * remoteSealer :=
  let live := filter (fun kv => fresh_entry now (snd kv) = true) (rates s) in
  (total_rate live,
   mkSealer (requestExit s) (exitCh s) (current s) (solvable s) (latest s)
            live (notify s) (results s)).

(** Modelled from the spec: whether a solvable package is the current one of
    its block number ("at most one current WorkPackage per blockNumber"). *)
Definition is_current (s : remoteSealer) (h : Header) : bool :=
  match current s !! Number h with
  | Some w => bool_decide (wSealHash w = SealHash h)
  | None => false
  end.

(** Modelled from the spec: the pruning of superseded packages, missing from
    the sources: a package stays solvable "until explicitly pruned"; pruning
    keeps the packages that are current for their block number. *)
Definition prune (s : remoteSealer) : remoteSealer :=
  mkSealer (requestExit s) (exitCh s) (current s)
           (filter (fun kv => is_current s (snd kv) = true) (solvable s))
           (latest s) (rates s) (notify s) (results s).

(** Modelled from the spec: the processing loop's reaction to the stop signal,
    missing from the sources: once [requestExit] is closed the loop leaves
    and closes [exitCh]; until then it keeps running. *)
Definition loop_exit (s : remoteSealer) : remoteSealer :=
  if requestExit s then
    mkSealer true true (current s) (solvable s) (latest s) (rates s)
             (notify s) (results s)
  else s.

End Remote.

(* ===================================================================== *)
(** ** frkhash.go: one engine *)
(* ===================================================================== *)

Module Engine.
Import Keccak Algorithm Types Remote.

(** What [Close] does to the sealer's channels, in order. *)
Inductive event := EvCloseRequestExit | EvExitObserved.

#[global] Instance event_eq_dec : EqDecision event.
Proof. solve_decision. Defined.

(** [sync.Once.Do(f)] on the engine's [closeOnce]: [f] runs if no call has
    run it before, and the flag is set. *)
Definition Once_Do (f : Frkhash -> outcome (list event * Frkhash))
  (e : Frkhash) : outcome (list event * Frkhash) :=
  if closeOnce e then Ok ([], e)
  else
    r ← f e;
    Ok (fst r, set_closeOnce true (snd r)).

(** [close(requestExit)] on a channel that is still open. *)
Definition closeRequestExit (s : remoteSealer) : remoteSealer :=
  mkSealer true (exitCh s) (current s) (solvable s) (latest s)
           (rates s) (notify s) (results s).

(** The function [Close] hands to [closeOnce.Do]. *)
Definition teardown (e : Frkhash) : outcome (list event * Frkhash) :=
  match remote e with
  | None =>
      (* Short circuit if the exit channel is not allocated. *)
      Ok ([], e)
  | Some s =>
      (* close(frkhash.remote.requestExit): closing twice panics *)
      if requestExit s then Panic
      else
        let s := closeRequestExit s in
        (* the sealer's loop sees the signal *)
        let s := loop_exit s in
        (* <-frkhash.remote.exitCh: returns once the channel is closed *)
        if exitCh s
        then Ok ([EvCloseRequestExit; EvExitObserved], set_remote (Some s) e)
        else Blocked
  end.

(** [Close()]: the error returned ([None] is nil), what was done to the
    channels, and the engine after the call. *)
Definition Close (e : Frkhash) : outcome (option error * list event * Frkhash) :=
  r ← Once_Do teardown e;
  Ok (None, fst r, snd r).

(** [lock.Lock()]: a mutex that is held is never released in a sequential
    run, so the caller blocks. *)
Definition Lock (e : Frkhash) : outcome Frkhash :=
  if lock e then Blocked else Ok (set_lock true e).

(** [lock.Unlock()]. *)
Definition Unlock (e : Frkhash) : Frkhash := set_lock false e.

(** The select of [SetThreads]: the value is handed over if a receiver is
    parked on the channel; on a nil channel, or with nobody receiving, the
    default branch is taken and the value is dropped. *)
Definition try_send (c : option chan) : option chan :=
  match c with
  | Some ch =>
      if receiver ch
      then Some {| receiver := false; delivered := S (delivered ch) |}
      else Some ch
  | None => None
  end.

(** Reading the meter: [frkhash.hashrate.Rate1()]; the interface may be
    nil. *)
Definition localRate (e : Frkhash) : outcome float :=
  match hashrate e with
  | Some m => Ok (Rate1 m)
  | None => Panic
  end.

(** [Hashrate()] at time [now].  The request sent on [fetchRateCh] is
    answered by the sealer's loop with [aggregateHashrate]; if [exitCh] is
    closed the loop is gone, nobody receives on [fetchRateCh] and the second
    branch of the select is the only one ready. *)
Definition Hashrate (now : Z) (e : Frkhash) : outcome (float * Frkhash) :=
  (* Short circuit if we are run the frkhash in normal/test mode. *)
  if bool_decide (PowMode (config e) ≠ ModeNormal)
     && bool_decide (PowMode (config e) ≠ ModeTest)
  then
    x ← localRate e; Ok (x, e)
  else
    match remote e with
    | None => Panic
    | Some s =>
        if exitCh s then
          (* Return local hashrate only if frkhash is stopped. *)
          x ← localRate e; Ok (x, e)
        else
          let res := aggregateHashrate now s in
          x ← localRate e;
          Ok ((x + float_of_uint64 (fst res))%float,
              set_remote (Some (snd res)) e)
    end.

(** The 256-bit integer a 32-byte string stands for, big-endian. *)
Definition big_endian (bs : list byte) : Z :=
  fold_left (fun acc b => (256 * acc + Z.of_N (Byte.to_N b))%Z) bs 0%Z.

(** Modelled from the spec: [VerifySeal(header)], missing from the sources
    (consensus.go).  "Normal/Test/Shared: run the Hash Mixer, compare digest
    and result against header's declared MixDigest/Nonce and
    difficulty-derived target; mismatch -> InvalidProofOfWork.  Fake:
    unconditionally succeeds unless header.Number equals a configured
    fail-block.  FullFake: unconditionally succeeds."  The hash mixer is
    [frankomoto]; [None] is success. *)
Definition VerifySeal (e : Frkhash) (h : Header) : option error :=
  match PowMode (config e) with
  | ModeFullFake => None
  | ModeFake =>
      if bool_decide (Number h = Z.of_N (fakeFail e))
      then Some InvalidProofOfWork else None
  | ModeNormal | ModeTest | ModeShared =>
      match frankomoto (SealHash h) (Nonce h) with
      | Some (digest, result) =>
          if bool_decide (digest = MixDigest h)
             && (big_endian result <=? target (Difficulty h))%Z
          then None else Some InvalidProofOfWork
      | None => Some InvalidProofOfWork
      end
  end.

(** [VerifySeal] as a test: the header passes. *)
Definition verifies (e : Frkhash) (h : Header) : bool :=
  bool_decide (VerifySeal e h = None).

(** Modelled from the spec: [GetWork()], missing from the sources (api.go):
    the coordinator's [currentWork]; it "fails with NoMiningWork if nothing
    issued yet, EngineStopped if torn down".  The RPC-facing operations pass
    the request to the engine's coordinator; on an engine without a
    coordinator there is none to ask ([None]). *)
Definition GetWork (e : Frkhash) : option (error + WorkPackage) :=
  currentWork <$> remote e.

(** Modelled from the spec: [SubmitWork(nonce, sealHash, mixDigest)], missing
    from the sources (api.go): the coordinator's [submitWork], with the
    engine's [VerifySeal] as the check. *)
Definition SubmitWork (nonce : N) (sealHash mixDigest : Hash) (e : Frkhash)
  : option (bool * Frkhash) :=
  s ← remote e;
  let r := submitWork (verifies e) nonce sealHash mixDigest s in
  Some (fst r, set_remote (Some (snd r)) e).

(** Modelled from the spec: [SubmitHashrate(rate, minerID)], missing from
    the sources (api.go): the coordinator's [submitHashrate]. *)
Definition SubmitHashrate (r : N) (id : Hash) (now : Z) (e : Frkhash)
  : option (bool * Frkhash) :=
  s ← remote e;
  let res := submitHashrate id r now s in
  Some (fst res, set_remote (Some (snd res)) e).

(** Modelled from the spec: the part of [Seal] that hands the work to the
    coordinator, missing from the sources (sealer.go): "Seal constructs and
    hands a WorkPackage to it and returns immediately".  The local search for
    a nonce is not modelled. *)
Definition Seal (h : Header) (e : Frkhash) : option Frkhash :=
  s ← remote e;
  Some (set_remote (Some (pushWork h s)) e).

(** Modelled from the spec: the coordinator pruning its superseded
    packages, as an event on the engine. *)
Definition Prune (e : Frkhash) : option Frkhash :=
  s ← remote e;
  Some (set_remote (Some (prune s)) e).

(** The calls a client can make on one engine, and the engine after each.
    A call that is not available, panics or blocks ends the run. *)
Inductive Call :=
| CSeal (h : Header)
| CGetWork
| CSubmitWork (nonce : N) (sealHash mixDigest : Hash)
| CSubmitHashrate (r : N) (id : Hash) (now : Z)
| CHashrate (now : Z)
| CPrune
| CClose.

(** An operation that does not exist on the engine ends the run. *)
Definition of_option {A} (o : option A) : outcome A :=
  match o with
  | Some a => Ok a
  | None => Panic
  end.

(** The engine after one call; what the call returns is dropped. *)
Definition step (c : Call) (e : Frkhash) : outcome Frkhash :=
  match c with
  | CSeal h => of_option (Seal h e)
  | CGetWork => _ ← of_option (GetWork e); Ok e
  | CSubmitWork n sh md => snd <$> of_option (SubmitWork n sh md e)
  | CSubmitHashrate r id now => snd <$> of_option (SubmitHashrate r id now e)
  | CHashrate now => snd <$> Hashrate now e
  | CPrune => of_option (Prune e)
  | CClose => snd <$> Close e
  end.

(** The engine after a list of calls. *)
Fixpoint run (cs : list Call) (e : Frkhash) : outcome Frkhash :=
  match cs with
  | [] => Ok e
  | c :: cs' => e' ← step c e; run cs' e'
  end.

(** [n] calls of [Close] in a row: the errors returned, what was done to
    the channels over all the calls, and the engine at the end. *)
Fixpoint Closes (n : nat) (e : Frkhash)
  : outcome (list (option error) * list event * Frkhash) :=
  match n with
  | O => Ok ([], [], e)
  | S k =>
      r ← Close e;
      r' ← Closes k (snd r);
      Ok (fst (fst r) :: fst (fst r'), snd (fst r) ++ snd (fst r'), snd r')
  end.

(** The engine's sealer (a fresh one if it has none). *)
Definition sealer_of (e : Frkhash) : remoteSealer :=
  default (startRemoteSealer [] false) (remote e).

(** The engine's coordinator has left. *)
Definition stopped (e : Frkhash) : Prop :=
  exists s, remote e = Some s /\ exitCh s = true.

(** The engine's coordinator runs and has been handed no work yet. *)
Definition idle (e : Frkhash) : Prop :=
  exists s, remote e = Some s /\ exitCh s = false /\ latest s = None.

(** The number of times [requestExit] was closed. *)
Definition closes_of (evs : list event) : nat :=
  length (filter (fun ev => ev = EvCloseRequestExit) evs).

End Engine.

(* ===================================================================== *)
(** ** [Close] called from several goroutines

    The steps of [Close] one at a time, for any number of callers on one
    engine.  [sync.Once] lets one caller into the function it guards (it
    holds the Once's mutex while the function runs) and makes the others
    wait until the flag is set; the sealer's loop is one more party, which
    closes [exitCh] after it has seen [requestExit] closed. *)
(* ===================================================================== *)

Module Concurrent.
Import Types Remote Engine.

(** Where a caller is in [Close]: before [closeOnce.Do], inside the guarded
    function before [close(requestExit)], parked on [<-exitCh], or back with
    the nil error. *)
Inductive pc := AtDo | InBody | Waiting | Returned.

#[global] Instance pc_eq_dec : EqDecision pc.
Proof. solve_decision. Defined.

(** The engine the callers share, whether a caller is inside the guarded
    function, where each caller is, and how many times [requestExit] was
    closed. *)
Record conf := mkConf {
  eng : Frkhash;
  busy : bool;
  pcs : list pc;
  closes : nat
}.

(** One party moves: a caller of [Close], or the sealer's loop. *)
Inductive step : conf -> conf -> Prop :=
| step_fast i c :
    (* the flag is set: Do returns at once *)
    pcs c !! i = Some AtDo -> closeOnce (eng c) = true ->
    step c (mkConf (eng c) (busy c) (<[i := Returned]> (pcs c)) (closes c))
| step_enter i c :
    (* the flag is not set and nobody is inside: the caller goes in *)
    pcs c !! i = Some AtDo -> closeOnce (eng c) = false -> busy c = false ->
    step c (mkConf (eng c) true (<[i := InBody]> (pcs c)) (closes c))
| step_nil i c :
    (* remote == nil: the function returns, the flag is set *)
    pcs c !! i = Some InBody -> remote (eng c) = None ->
    step c (mkConf (set_closeOnce true (eng c)) false
                   (<[i := Returned]> (pcs c)) (closes c))
| step_close i c s :
    (* close(frkhash.remote.requestExit) *)
    pcs c !! i = Some InBody -> remote (eng c) = Some s -> requestExit s = false ->
    step c (mkConf (set_remote (Some (closeRequestExit s)) (eng c)) (busy c)
                   (<[i := Waiting]> (pcs c)) (S (closes c)))
| step_wait i c s :
    (* <-frkhash.remote.exitCh, the function returns, the flag is set *)
    pcs c !! i = Some Waiting -> remote (eng c) = Some s -> exitCh s = true ->
    step c (mkConf (set_closeOnce true (eng c)) false
                   (<[i := Returned]> (pcs c)) (closes c))
| step_sealer c s :
    (* the sealer's loop leaves *)
    remote (eng c) = Some s -> requestExit s = true -> exitCh s = false ->
    step c (mkConf (set_remote (Some (loop_exit s)) (eng c)) (busy c)
                   (pcs c) (closes c)).

(** A caller is about to close a channel that is closed already. *)
Definition panics (c : conf) : Prop :=
  exists i s, pcs c !! i = Some InBody /\ remote (eng c) = Some s
              /\ requestExit s = true.

(** [k] callers about to call [Close] on [e]. *)
Definition start (e : Frkhash) (k : nat) : conf :=
  mkConf e false (repeat AtDo k) 0.

(** The number of callers at [p]. *)
Definition num (p : pc) (l : list pc) : nat :=
  length (filter (fun q => q = p) l).

(** The stages the callers go through together.  First: nobody has entered
    the guarded function. *)
Definition fresh_stage (c : conf) : Prop :=
  closeOnce (eng c) = false /\ busy c = false
  /\ num InBody (pcs c) = 0 /\ num Waiting (pcs c) = 0 /\ num Returned (pcs c) = 0
  /\ closes c = 0
  /\ (forall s, remote (eng c) = Some s -> requestExit s = false /\ exitCh s = false).

(** One caller is inside the guarded function, [requestExit] still open. *)
Definition body_stage (c : conf) : Prop :=
  closeOnce (eng c) = false /\ busy c = true
  /\ num InBody (pcs c) = 1 /\ num Waiting (pcs c) = 0 /\ num Returned (pcs c) = 0
  /\ closes c = 0
  /\ (forall s, remote (eng c) = Some s -> requestExit s = false /\ exitCh s = false).

(** That caller has closed [requestExit] and waits on [exitCh]. *)
Definition wait_stage (c : conf) : Prop :=
  closeOnce (eng c) = false /\ busy c = true
  /\ num InBody (pcs c) = 0 /\ num Waiting (pcs c) = 1 /\ num Returned (pcs c) = 0
  /\ closes c = 1
  /\ (exists s, remote (eng c) = Some s /\ requestExit s = true).

(** The flag is set; [before] tells whether it was set from the start. *)
Definition done_stage (before : bool) (c : conf) : Prop :=
  closeOnce (eng c) = true /\ busy c = false
  /\ num InBody (pcs c) = 0 /\ num Waiting (pcs c) = 0
  /\ closes c = (if before then 0
                 else match remote (eng c) with Some _ => 1 | None => 0 end)
  /\ (forall s, remote (eng c) = Some s -> requestExit s = true /\ exitCh s = true).

(** The callers are in one of the four stages. *)
Definition stage (before : bool) (c : conf) : Prop :=
  (before = false /\ (fresh_stage c \/ body_stage c \/ wait_stage c))
  \/ done_stage before c.

End Concurrent.

(* ===================================================================== *)
(** ** frkhash.go: the engines of a process

    Engines are shared through pointers ([shared *Frkhash], the package
    variable [sharedFrkhash]), so the constructors, [Threads] and
    [SetThreads] work on a store of engines. *)
(* ===================================================================== *)

Module Process.
Import Keccak Algorithm Types Remote Engine.

(** The engines allocated so far and the package variable
    [sharedFrkhash]. *)
Record World := mkWorld {
  heap : gmap loc Frkhash;
  sharedFrkhash : option loc
}.

(** A write through the pointer [l]. *)
Definition store (l : loc) (e : Frkhash) (w : World) : World :=
  mkWorld (<[l := e]> (heap w)) (sharedFrkhash w).

(** [&Frkhash{...}]: the engine is put at an address not in use. *)
Definition alloc (e : Frkhash) (w : World) : loc * World :=
  let l := fresh (dom (heap w)) in (l, store l e w).

(** [New(config, notify, noverify)]. *)
Definition New (cfg : Config) (endpoints : list string) (noverify : bool)
  (w : World) : loc * World :=
  let frkhash :=
    {| config := cfg; threads := 0;
       update := Some {| receiver := false; delivered := 0 |};
       hashrate := Some NewMeterForced;
       remote := None; shared := None; fakeFail := 0; fakeDelay := 0;
       lock := false; closeOnce := false |} in
  let frkhash :=
    if bool_decide (PowMode cfg = ModeShared)
    then set_shared (sharedFrkhash w) frkhash
    else frkhash in
  let frkhash :=
    set_remote (Some (startRemoteSealer endpoints noverify)) frkhash in
  alloc frkhash w.

(** [NewTester(notify, noverify)]. *)
Definition NewTester (endpoints : list string) (noverify : bool) (w : World)
  : loc * World :=
  New {| PowMode := ModeTest; NotifyFull := false |} endpoints noverify w.

(** [Config{PowMode: ModeFake, Log: log.Root()}]. *)
Definition fakeConfig : Config := {| PowMode := ModeFake; NotifyFull := false |}.

(** [NewFaker()]. *)
Definition NewFaker (w : World) : loc * World :=
  alloc (mkFrkhash fakeConfig 0 None None None None 0 0 false false) w.

(** [NewFakeFailer(fail)]. *)
Definition NewFakeFailer (fail : N) (w : World) : loc * World :=
  alloc (mkFrkhash fakeConfig 0 None None None None fail 0 false false) w.

(** [NewFakeDelayer(delay)]. *)
Definition NewFakeDelayer (delay : Z) (w : World) : loc * World :=
  alloc (mkFrkhash fakeConfig 0 None None None None 0 delay false false) w.

(** [NewFullFaker()]. *)
Definition NewFullFaker (w : World) : loc * World :=
  alloc (mkFrkhash {| PowMode := ModeFullFake; NotifyFull := false |}
                   0 None None None None 0 0 false false) w.

(** [NewShared()]: every other field has its zero value, the mode
    included. *)
Definition NewShared (w : World) : loc * World :=
  alloc (set_shared (sharedFrkhash w) zeroFrkhash) w.

(** The package's [init()]: [sharedFrkhash = New(sharedConfig, nil, false)],
    run once before anything else. *)
Definition init : World :=
  let r := New {| PowMode := ModeNormal; NotifyFull := false |} [] false
               (mkWorld ∅ None) in
  mkWorld (heap (snd r)) (Some (fst r)).

(** [Threads()]: the lock is taken, the field read, the lock released; the
    store is the same before and after. *)
Definition Threads (l : loc) (w : World) : outcome Z :=
  match heap w !! l with
  | None => Panic
  | Some e => e' ← Lock e; Ok (threads e')
  end.

(** [SetThreads(threads)].  The call on the shared engine is made with the
    caller's lock held; [fuel] bounds the depth of that recursion. *)
Fixpoint SetThreads_rec (fuel : nat) (l : loc) (n : Z) (w : World)
  : outcome World :=
  match fuel with
  | O => Blocked
  | S fuel' =>
      match heap w !! l with
      | None => Panic
      | Some e =>
          (* frkhash.lock.Lock() *)
          e ← Lock e;
          let w := store l e w in
          w ← match shared e with
              | Some s =>
                  (* set the thread count on the shared engine instead *)
                  SetThreads_rec fuel' s n w
              | None =>
                  (* frkhash.threads = threads, then the select *)
                  let e := set_threads n e in
                  let e := set_update (try_send (update e)) e in
                  Ok (store l e w)
              end;
          (* defer frkhash.lock.Unlock() *)
          match heap w !! l with
          | Some e => Ok (store l (Unlock e) w)
          | None => Panic
          end
      end
  end.

(** Every nested call takes the lock of one more engine, so a chain longer
    than the store has blocked on a held lock before the fuel is spent. *)
Definition SetThreads (l : loc) (n : Z) (w : World) : outcome World :=
  SetThreads_rec (S (size (heap w))) l n w.

(** A call on the engine at [l]. *)
Definition on_engine (f : Frkhash -> outcome Frkhash) (l : loc) (w : World)
  : outcome World :=
  match heap w !! l with
  | None => Panic
  | Some e => e' ← f e; Ok (store l e' w)
  end.

(** Modelled from the spec: an in-flight Seal parking on the engine's
    [update] channel, missing from the sources (sealer.go): the notification
    of [SetThreads] "wakes any in-flight Seal call so it can restart with the
    new worker count". *)
Definition listen (e : Frkhash) : outcome Frkhash :=
  match update e with
  | Some ch => Ok (set_update (Some {| receiver := true; delivered := delivered ch |}) e)
  | None => Blocked
  end.

(** Modelled from the spec: the local search marking the meter, missing from
    the sources (sealer.go); the meter then reads [x]. *)
Definition mark (x : float) (e : Frkhash) : outcome Frkhash :=
  match hashrate e with
  | Some _ => Ok (set_hashrate (Some {| Rate1 := x |}) e)
  | None => Panic
  end.

(** What a process can do with the package. *)
Inductive Action :=
| ANew (cfg : Config) (endpoints : list string) (noverify : bool)
| ANewTester (endpoints : list string) (noverify : bool)
| ANewFaker
| ANewFakeFailer (fail : N)
| ANewFakeDelayer (delay : Z)
| ANewFullFaker
| ANewShared
| ASetThreads (l : loc) (n : Z)
| AThreads (l : loc)
| ACall (l : loc) (c : Call)
| AListen (l : loc)
| AMark (l : loc) (x : float).

(** The world after one action. *)
Definition act (a : Action) (w : World) : outcome World :=
  match a with
  | ANew cfg ep nv => Ok (snd (New cfg ep nv w))
  | ANewTester ep nv => Ok (snd (NewTester ep nv w))
  | ANewFaker => Ok (snd (NewFaker w))
  | ANewFakeFailer f => Ok (snd (NewFakeFailer f w))
  | ANewFakeDelayer d => Ok (snd (NewFakeDelayer d w))
  | ANewFullFaker => Ok (snd (NewFullFaker w))
  | ANewShared => Ok (snd (NewShared w))
  | ASetThreads l n => SetThreads l n w
  | AThreads l => _ ← Threads l w; Ok w
  | ACall l c => on_engine (step c) l w
  | AListen l => on_engine listen l w
  | AMark l x => on_engine (mark x) l w
  end.

(** The worlds a process can be in: [init] has run, then any actions that
    returned. *)
Inductive reachable : World -> Prop :=
| reach_init : reachable init
| reach_act a w w' : reachable w -> act a w = Ok w' -> reachable w'.

(** The world after a list of actions. *)
Fixpoint perform (acts : list Action) (w : World) : outcome World :=
  match acts with
  | [] => Ok w
  | a :: rest => w' ← act a w; perform rest w'
  end.

(** What holds of every engine of a process: its lock is free between
    calls; it either has no shared engine, or its shared engine is the
    package's and its own thread count was never written; the channels of its
    sealer are closed exactly when its [closeOnce] has run. *)
Definition engine_ok (sh : option loc) (e : Frkhash) : Prop :=
  lock e = false
  /\ (shared e = None \/ (shared e = sh /\ threads e = 0%Z))
  /\ (forall s, remote e = Some s ->
        requestExit s = closeOnce e /\ exitCh s = closeOnce e).

(** The package's shared engine exists and has no shared engine itself, and
    every engine is in order. *)
Definition invariant (w : World) : Prop :=
  (exists s0 e0, sharedFrkhash w = Some s0 /\ heap w !! s0 = Some e0
                 /\ shared e0 = None)
  /\ forall l e, heap w !! l = Some e -> engine_ok (sharedFrkhash w) e.

End Process.

(* ===================================================================== *)
(** ** Test data

    The vectors of algorithm_test.go and the engines of frkhash_test.go. *)
(* ===================================================================== *)

Module Fixtures.
Import Keccak Algorithm Types Remote Engine Process.

(** [hexutil.MustDecode]: the [k] bytes of a number written big-endian. *)
Fixpoint be_bytes (k : nat) (n : N) : list byte :=
  match k with
  | O => []
  | S k' => be_bytes k' (n / 256) ++ [byte_of_N n]
  end.

(** TestFrankomoto: the block hash, the nonce and the values wanted. *)
Definition testHash : list byte :=
  be_bytes 32 0xc9149cc0386e689d789a1c2f3d5d169a61a6218ed30e74414dc736e442ef3d1f.

(** [nonce := uint64(0)]. *)
Definition testNonce : N := 0.

(** [wantDigest], 64 bytes. *)
Definition wantDigest : list byte :=
  be_bytes 64 0x83c508788b56b731031b4c4f4d0e7a8b4d66e9f0c5bb436a05f404fc7f0f82365c763662184d57157ef85c4672c3a68acd6fd2e35533f55abaa13c238023b506.

(** [wantResult], 32 bytes. *)
Definition wantResult : list byte :=
  be_bytes 32 0x74d692675960275b0523dc248bf3d5783f13e6ec2bc045a661dd2641e95ef2e2.

(** A lookup structure of eight rows of zeros, for running the
    specification's mixing loop. *)
Definition zeroLookup : N -> list N := fun _ => repeat 0%N 16.

(** A lookup structure whose row [i] repeats [i]. *)
Definition indexLookup : N -> list N := fun i => repeat i 16.

(** The engine at an address. *)
Definition engine_at (l : loc) (w : World) : Frkhash :=
  default zeroFrkhash (heap w !! l).

(** The engine after some calls. *)
Definition after (cs : list Call) (e : Frkhash) : Frkhash :=
  match run cs e with
  | Ok e' => e'
  | _ => e
  end.

(** [NewTester(nil, false)], the engine of the tests: the world after the
    call, the address returned, and the engine there. *)
Definition testerWorld : World := snd (NewTester [] false init).

Definition tester : loc := fst (NewTester [] false init).

Definition testerEngine : Frkhash :=
  Eval vm_compute in engine_at tester testerWorld.

(** TestFrkhashHashrate: three miners report 100, 200 and 300. *)
Definition minerId (n : N) : Hash := be_bytes 32 n.

(** The three calls of SubmitHashrate. *)
Definition threeRates : list Call :=
  [ CSubmitHashrate 100 (minerId 0xa) 1;
    CSubmitHashrate 200 (minerId 0xb) 1;
    CSubmitHashrate 300 (minerId 0xc) 1 ].

(** [New(Config{PowMode: ModeShared}, nil, false)]: the world after the call
    and the address returned. *)
Definition sharedModeWorld : World :=
  snd (New {| PowMode := ModeShared; NotifyFull := false |} [] false init).

Definition sharedModeLoc : loc :=
  fst (New {| PowMode := ModeShared; NotifyFull := false |} [] false init).

(** That engine after the three reports. *)
Definition sharedModeEngine : Frkhash :=
  Eval vm_compute in after threeRates (engine_at sharedModeLoc sharedModeWorld).

(** The tester after the three reports. *)
Definition ratedTester : Frkhash :=
  Eval vm_compute in after threeRates testerEngine.

(** [NewShared()]: the world after the call and the address returned. *)
Definition sharedWorld : World := snd (NewShared init).

Definition sharedLoc : loc := fst (NewShared init).

(** TestFrkhashRemoteSealer: two headers for block 1, of difficulty 100 and
    1000.  Their seal hashes come from outside the package; the test vector
    and its hash stand in for them. *)
Definition header100 : Header :=
  {| Number := 1; Difficulty := 100; Nonce := 0; MixDigest := make 32;
     SealHash := testHash |}.

(** The header that replaces it. *)
Definition header1000 : Header :=
  {| Number := 1; Difficulty := 1000; Nonce := 0; MixDigest := make 32;
     SealHash := Keccak256 testHash |}.

(** [work[0]] of a GetWork that succeeded. *)
Definition work_hash (r : option (error + WorkPackage)) : option Hash :=
  match r with
  | Some (inr w) => Some (wSealHash w)
  | _ => None
  end.

(** A nonce that solves [header100], and the digest that goes with it. *)
Definition solvingNonce : N := 21.

(** The last 32 bytes of the seed of [header100] under that nonce. *)
Definition solvingDigest : Hash :=
  skipn 32 (Keccak512 (testHash ++ littleEndian64 solvingNonce)).

End Fixtures.

(* ===================================================================== *)
(** ** frkhash.go: the byte-order probe *)
(* ===================================================================== *)

Module Host.
Import Keccak.

(** Byte [k] of a word, byte 0 being the least significant. *)
Definition byte_at (n : N) (k : nat) : byte :=
  byte_of_N (N.shiftr n (8 * N.of_nat k)).

(** [isLittleEndian()].  The read through [unsafe.Pointer(&n)], cast to a
    byte pointer, yields the byte of [n] that sits at its lowest address;
    which byte of the value that is depends on the host and is the parameter
    [lowest]: 0 on a little-endian host, 3 on a big-endian one. *)
Definition isLittleEndian (lowest : nat) : bool :=
  let n := 0x01020304%N in
  bool_decide (byte_at n lowest = x04).

End Host.

(* ===================================================================== *)
(** ** frkhash_test.go: the block numbers of verifyFrkhashTest *)
(* ===================================================================== *)

Module Tests.
Import Algorithm.
Local Open Scope Z_scope.

(** A value as an [int64]: the arithmetic of Go wraps around. *)
Definition int64 (z : Z) : Z := (z + 2 ^ 63) mod 2 ^ 64 - 2 ^ 63.

(** [const wiggle = 4 * epochLength]. *)
Definition wiggle : Z := 4 * Z.of_N epochLength.

(** The block number [verifyFrkhashTest] builds its header for in round
    [epoch]; [x] is what [r.Int63n(wiggle)] returned:
    [block := int64(epoch)*epochLength - wiggle/2 + x], raised to 0 if
    negative. *)
Definition test_block (epoch x : Z) : Z :=
  let block :=
    int64 (int64 (int64 (int64 epoch * Z.of_N epochLength) - wiggle / 2) + x) in
  if block <? 0 then 0 else block.

End Tests.

(* ===================================================================== *)
(** ** What stays of an engine over its life *)
(* ===================================================================== *)

Module Lifetime.
Import Types Remote Engine Process.

(** [e'] is [e] as far as construction goes: same configuration, same shared
    engine, same fake settings, a sealer, a meter and an update channel
    exactly where [e] has them; and closed if [e] is. *)
Definition keeps (e e' : Frkhash) : Prop :=
  config e' = config e /\ shared e' = shared e
  /\ fakeFail e' = fakeFail e /\ fakeDelay e' = fakeDelay e
  /\ (remote e' = None <-> remote e = None)
  /\ (hashrate e' = None <-> hashrate e = None)
  /\ (update e' = None <-> update e = None)
  /\ (closeOnce e = true -> closeOnce e' = true).

(** The engine has its sealer, its meter and its update channel together, as
    [New] makes them, or none of them, as the other constructors do. *)
Definition built (e : Frkhash) : Prop :=
  (remote e = None <-> hashrate e = None)
  /\ (remote e = None <-> update e = None).

(** How far a caller of [Close] is from having returned. *)
Definition weight (p : Concurrent.pc) : nat :=
  match p with
  | Concurrent.AtDo => 3
  | Concurrent.InBody => 2
  | Concurrent.Waiting => 1
  | Concurrent.Returned => 0
  end.

(** Whether the sealer's loop has yet to leave. *)
Definition pending (e : Frkhash) : nat :=
  match remote e with
  | Some s => if exitCh s then 0 else 1
  | None => 0
  end.

(** The steps the callers and the sealer can still take, at most. *)
Definition measure (c : Concurrent.conf) : nat :=
  sum_list (weight <$> Concurrent.pcs c) + pending (Concurrent.eng c).

(** The world of the tester engine once a Seal is parked on its [update]
    channel. *)
Definition listeningWorld : World :=
  store Fixtures.tester
        (set_update (Some {| receiver := true; delivered := 0 |})
                    Fixtures.testerEngine)
        Fixtures.testerWorld.

End Lifetime.

(* ===================================================================== *)
(** * Theorems *)
(* ===================================================================== *)

Import Keccak Algorithm Types Remote Engine Process Fixtures.

(** ** Lengths of hashes and buffers *)

Section Lengths.

Lemma bytes_of_lane_length (l : lane) : length (bytes_of_lane l) = 8.
Proof. unfold bytes_of_lane. now rewrite length_map, length_seq. Qed.

Lemma state_bytes_length (st : state) : length (state_bytes st) = 200.
Proof.
  unfold state_bytes.
  assert (H : forall is_, length (flat_map (fun i => bytes_of_lane (nth i st 0%N)) is_)
                          = 8 * length is_).
  { induction is_ as [|i is_ IH]; [reflexivity|].
    cbn [flat_map]. rewrite length_app, bytes_of_lane_length, IH. cbn [length]. lia. }
  rewrite H, length_seq. reflexivity.
Qed.

Lemma sponge_length (rate outlen : nat) (msg : list byte) :
  outlen <= 200 -> length (sponge rate outlen msg) = outlen.
Proof.
  intros Hle. unfold sponge.
  rewrite length_firstn, state_bytes_length. lia.
Qed.

Lemma Keccak256_length (msg : list byte) : length (Keccak256 msg) = 32.
Proof. apply sponge_length. lia. Qed.

Lemma Keccak512_length (msg : list byte) : length (Keccak512 msg) = 64.
Proof. apply sponge_length. lia. Qed.

Lemma littleEndian64_length (v : N) : length (littleEndian64 v) = 8.
Proof. unfold littleEndian64. now rewrite length_map, length_seq. Qed.

Lemma make_length (n : nat) : length (make n) = n.
Proof. apply repeat_length. Qed.

Lemma copy_length (dst src : list byte) : length (copy dst src) = length dst.
Proof.
  unfold copy. rewrite length_app, length_firstn, length_skipn. lia.
Qed.

(** The first 32 bytes of the 40-byte buffer after [copy(digest, hash)] are
    those of [hash] when it has that many. *)
Lemma copy_prefix (hash : list byte) :
  32 <= length hash -> firstn 32 (copy (make 40) hash) = firstn 32 hash.
Proof.
  intros Hlen. unfold copy. rewrite make_length.
  rewrite firstn_app, length_firstn, firstn_firstn.
  replace (32 - Nat.min (Nat.min 40 (length hash)) (length hash)) with 0 by lia.
  replace (Nat.min 32 (Nat.min 40 (length hash))) with 32 by lia.
  cbn [firstn]. apply app_nil_r.
Qed.

End Lengths.

(** ** [frankomoto] *)

Section Frankomoto.

(** [frankomoto] never panics, and this is what it returns. *)
Lemma frankomoto_unfold (hash : list byte) (nonce : N) :
  frankomoto hash nonce =
  Some (skipn 32 (Keccak512 (seed_input hash nonce)),
        Keccak256 (Keccak512 (seed_input hash nonce))).
Proof.
  unfold frankomoto, PutUint64.
  rewrite copy_length, make_length.
  change (32 + 8 <=? 40) with true. cbn iota.
  assert (Hs : skipn (32 + 8) (copy (make 40) hash) = []).
  { apply skipn_all2. rewrite copy_length, make_length. lia. }
  rewrite Hs, app_nil_r. fold (seed_input hash nonce).
  rewrite Keccak512_length. reflexivity.
Qed.

Lemma seed_input_long (hash : list byte) (nonce : N) :
  32 <= length hash ->
  seed_input hash nonce = firstn 32 hash ++ littleEndian64 nonce.
Proof. intros H. unfold seed_input. now rewrite copy_prefix. Qed.

Lemma frankomoto_long (hash : list byte) (nonce : N) :
  32 <= length hash ->
  frankomoto hash nonce =
  Some (skipn 32 (Keccak512 (firstn 32 hash ++ littleEndian64 nonce)),
        Keccak256 (Keccak512 (firstn 32 hash ++ littleEndian64 nonce))).
Proof. intros H. now rewrite frankomoto_unfold, seed_input_long. Qed.

Lemma seed_half_length (msg : list byte) : length (skipn 32 (Keccak512 msg)) = 32.
Proof. rewrite length_skipn, Keccak512_length. reflexivity. Qed.

End Frankomoto.

(** The nonce is a [uint64]: only its low 64 bits reach the seed. *)
Lemma shiftr_mod_low (n k : N) :
  (k + 8 <= 64)%N ->
  ((N.shiftr (n mod 2 ^ 64) k) mod 2 ^ 8 = (N.shiftr n k) mod 2 ^ 8)%N.
Proof.
  intros Hk. apply N.bits_inj. intros j.
  destruct (N.ltb_spec j 8) as [Hj|Hj].
  - rewrite !N.mod_pow2_bits_low by assumption.
    rewrite !N.shiftr_spec by apply N.le_0_l.
    apply N.mod_pow2_bits_low. lia.
  - now rewrite !N.mod_pow2_bits_high by assumption.
Qed.

Lemma littleEndian64_wrap (n : N) :
  littleEndian64 (n mod 2 ^ 64) = littleEndian64 n.
Proof.
  unfold littleEndian64. apply map_ext_in. intros i Hi.
  apply in_seq in Hi. unfold byte_of_N.
  change 256%N with (2 ^ 8)%N.
  rewrite shiftr_mod_low by lia. reflexivity.
Qed.

(** The two hashes of the empty string, as published. *)
Lemma Keccak_of_empty :
  Keccak256 [] =
    be_bytes 32 0xc5d2460186f7233c927e7db2dcc703c0e500b653ca82273b7bfad8045d85a470
  /\ Keccak512 [] =
    be_bytes 64 0x0eab42de4c3ceb9235fc91acffe746b29c29a8c366b7c60e4e67c466f36a4304c00fa9caf9d87976ba469bcbe06713b435f091ef2769fb160cdab33d3670680e.
Proof. split; vm_compute; reflexivity. Qed.

(** TestFrankomoto on the code: the result is the wanted one, the digest is
    the second half of the 64 bytes the test wants. *)
Lemma TestFrankomoto_run :
  frankomoto testHash testNonce = Some (skipn 32 wantDigest, wantResult)
  /\ Keccak512 (testHash ++ littleEndian64 testNonce) = wantDigest.
Proof. split; vm_compute; reflexivity. Qed.

(** C9.  For every hash of at least 32 bytes and every nonce, [frankomoto]
    returns the pair (s[32..63], Keccak256(s)) with
    s = Keccak512(hash[0..31] ++ littleEndian64(nonce)); digest and result
    have 32 bytes each; and the output is the same for any two hashes that
    agree on their first 32 bytes. *)
Theorem frankomoto_seed_half_and_hash (hash : list byte) (nonce : N) :
  32 <= length hash ->
  let s := Keccak512 (firstn 32 hash ++ littleEndian64 nonce) in
  frankomoto hash nonce = Some (firstn 32 (skipn 32 s), Keccak256 s)
  /\ length (firstn 32 (skipn 32 s)) = 32
  /\ length (Keccak256 s) = 32
  /\ forall hash' : list byte,
       32 <= length hash' -> firstn 32 hash' = firstn 32 hash ->
       frankomoto hash' nonce = frankomoto hash nonce.
Proof.
  intros Hlen. cbv zeta.
  set (s := Keccak512 (firstn 32 hash ++ littleEndian64 nonce)).
  assert (Hhalf : firstn 32 (skipn 32 s) = skipn 32 s).
  { apply firstn_all2. subst s. now rewrite seed_half_length. }
  rewrite Hhalf.
  split; [now apply frankomoto_long|].
  split; [apply seed_half_length|].
  split; [apply Keccak256_length|].
  intros hash' Hlen' Heq.
  rewrite !frankomoto_long by assumption. now rewrite Heq.
Qed.

Lemma frankomoto_seed_half_and_hash_witness :
  32 <= length testHash
  /\ frankomoto testHash 7 =
     Some (firstn 32 (skipn 32 (Keccak512 (firstn 32 testHash ++ littleEndian64 7))),
           Keccak256 (Keccak512 (firstn 32 testHash ++ littleEndian64 7))).
Proof.
  assert (H : 32 <= length testHash) by (vm_compute; lia).
  split; [exact H|].
  exact (proj1 (frankomoto_seed_half_and_hash testHash 7 H)).
Defined.

(** C1, as the code has it.  For every 32-byte header hash and every 64-bit
    nonce, [frankomoto] hashes headerHash ++ littleEndian64(nonce) into the
    64-byte seed, as the mixing loop of the specification does, and then
    returns the last 32 bytes of the seed as digest and Keccak256 of the seed
    as result: the result is the one of the specification's loop for every
    lookup structure, the digest is taken from the seed without any mix
    buffer, lookup or round. *)
Theorem frankomoto_splits_the_seed (headerHash : list byte) (nonce : N) :
  length headerHash = 32 -> (nonce < 2 ^ 64)%N ->
  let seed := Keccak512 (headerHash ++ littleEndian64 nonce) in
  seed = SpecMixer.seed_of headerHash nonce
  /\ length seed = 64
  /\ frankomoto headerHash nonce = Some (skipn 32 seed, Keccak256 seed)
  /\ forall (size : N) (lookup : N -> list N),
       snd <$> frankomoto headerHash nonce =
       Some (snd (SpecMixer.mix size lookup headerHash nonce)).
Proof.
  intros Hlen _ seed.
  assert (Hfirst : firstn 32 headerHash = headerHash).
  { apply firstn_all2. lia. }
  assert (Hrun : frankomoto headerHash nonce = Some (skipn 32 seed, Keccak256 seed)).
  { rewrite frankomoto_long by lia. subst seed. now rewrite Hfirst. }
  split; [subst seed; unfold SpecMixer.seed_of; now rewrite Hfirst|].
  split; [apply Keccak512_length|].
  split; [exact Hrun|].
  intros size lookup. rewrite Hrun.
  unfold SpecMixer.mix, SpecMixer.seed_of. rewrite Hfirst. reflexivity.
Qed.

Lemma frankomoto_splits_the_seed_witness :
  length testHash = 32 /\ (testNonce < 2 ^ 64)%N
  /\ frankomoto testHash testNonce =
     Some (skipn 32 (Keccak512 (testHash ++ littleEndian64 testNonce)),
           Keccak256 (Keccak512 (testHash ++ littleEndian64 testNonce))).
Proof.
  assert (H1 : length testHash = 32) by (vm_compute; reflexivity).
  assert (H2 : (testNonce < 2 ^ 64)%N) by (vm_compute; reflexivity).
  split; [exact H1|]. split; [exact H2|].
  exact (proj1 (proj2 (proj2 (frankomoto_splits_the_seed testHash testNonce H1 H2)))).
Defined.

(** C1, as stated, fails on the test vector: the pair [frankomoto] returns is
    not the pair of the specification's mixing loop, whether the loop runs
    over rows of zeros or over rows that repeat their index; the digest is
    neither the hash of seed and compressed mix nor the compressed mix. *)
Lemma frankomoto_is_not_the_mixing_loop :
  frankomoto testHash testNonce
    <> Some (SpecMixer.mix 1024 zeroLookup testHash testNonce)
  /\ frankomoto testHash testNonce
    <> Some (SpecMixer.mix 1024 indexLookup testHash testNonce)
  /\ fst <$> frankomoto testHash testNonce
    <> Some (SpecMixer.compressed_mix 1024 zeroLookup testHash testNonce).
Proof.
  split; [|split]; vm_compute; intros H; discriminate H.
Qed.

(** C3.  For every 32-byte header hash and 64-bit nonce there is one pair
    (digest, result), 32 bytes each, that every evaluation of [frankomoto] on
    that input returns: the function always returns, and what it returns is
    fixed by the pair alone, whatever slice holds the 32 bytes and whatever
    lies beyond the 64 bits of the nonce.  The function takes no engine and
    reads no variable of the package; its buffer starts zeroed and the nonce
    is written little-endian whatever the host. *)
Theorem frankomoto_deterministic (headerHash : list byte) (nonce : N) :
  length headerHash = 32 -> (nonce < 2 ^ 64)%N ->
  exists digest result : list byte,
    length digest = 32 /\ length result = 32
    /\ (forall out, frankomoto headerHash nonce = Some out <-> out = (digest, result))
    /\ forall (hash' : list byte) (nonce' : N),
         firstn 32 hash' = headerHash -> (nonce' mod 2 ^ 64 = nonce)%N ->
         frankomoto hash' nonce' = Some (digest, result).
Proof.
  intros Hlen _.
  exists (skipn 32 (Keccak512 (seed_input headerHash nonce))),
         (Keccak256 (Keccak512 (seed_input headerHash nonce))).
  split; [apply seed_half_length|]. split; [apply Keccak256_length|].
  split.
  - intros out. rewrite frankomoto_unfold. split.
    + intros H. now inversion H.
    + intros ->. reflexivity.
  - intros hash' nonce' Hhash Hnonce.
    assert (Hlen' : 32 <= length hash').
    { apply (f_equal (@length byte)) in Hhash.
      rewrite length_firstn, Hlen in Hhash. lia. }
    rewrite frankomoto_long by assumption.
    rewrite seed_input_long by lia.
    rewrite Hhash, <- Hnonce, littleEndian64_wrap.
    rewrite (firstn_all2 headerHash) by lia. reflexivity.
Qed.

Lemma frankomoto_deterministic_witness :
  length testHash = 32 /\ (testNonce < 2 ^ 64)%N
  /\ exists digest result : list byte,
       length digest = 32 /\ length result = 32
       /\ forall out, frankomoto testHash testNonce = Some out <-> out = (digest, result).
Proof.
  assert (H1 : length testHash = 32) by (vm_compute; reflexivity).
  assert (H2 : (testNonce < 2 ^ 64)%N) by (vm_compute; reflexivity).
  split; [exact H1|]. split; [exact H2|].
  destruct (frankomoto_deterministic testHash testNonce H1 H2)
    as (digest & result & Hd & Hr & Hout & _).
  exists digest, result. split; [exact Hd|]. split; [exact Hr|exact Hout].
Defined.
(** ** The sealer's channels and the engine's frame *)

Section SealerFrame.

Lemma pushWork_chans (h : Header) (s : remoteSealer) :
  requestExit (pushWork h s) = requestExit s /\ exitCh (pushWork h s) = exitCh s.
Proof. unfold pushWork. destruct (exited s); split; reflexivity. Qed.

Lemma submitWork_chans (v : Header -> bool) (n : N) (sh md : Hash) (s : remoteSealer) :
  requestExit (snd (submitWork v n sh md s)) = requestExit s
  /\ exitCh (snd (submitWork v n sh md s)) = exitCh s.
Proof.
  unfold submitWork. destruct (exited s); [split; reflexivity|].
  destruct (solvable s !! sh) as [h|]; [|split; reflexivity].
  destruct (v (with_seal h n md)); split; reflexivity.
Qed.

Lemma submitHashrate_chans (id : Hash) (r : N) (now : Z) (s : remoteSealer) :
  requestExit (snd (submitHashrate id r now s)) = requestExit s
  /\ exitCh (snd (submitHashrate id r now s)) = exitCh s.
Proof. unfold submitHashrate. destruct (exited s); split; reflexivity. Qed.

Lemma aggregateHashrate_chans (now : Z) (s : remoteSealer) :
  requestExit (snd (aggregateHashrate now s)) = requestExit s
  /\ exitCh (snd (aggregateHashrate now s)) = exitCh s.
Proof. split; reflexivity. Qed.

Lemma prune_chans (s : remoteSealer) :
  requestExit (prune s) = requestExit s /\ exitCh (prune s) = exitCh s.
Proof. split; reflexivity. Qed.

End SealerFrame.

(** ** [Close] *)

Section CloseFacts.

Lemma Close_done (e : Frkhash) :
  closeOnce e = true -> Close e = Ok (None, [], e).
Proof.
  intros H. unfold Close, Once_Do. rewrite H. cbn. now destruct e.
Qed.

Lemma Close_first_nil (e : Frkhash) :
  closeOnce e = false -> remote e = None ->
  Close e = Ok (None, [], set_closeOnce true e).
Proof.
  intros H Hr. unfold Close, Once_Do, teardown. rewrite H, Hr. reflexivity.
Qed.

Lemma Close_first_remote (e : Frkhash) (s : remoteSealer) :
  closeOnce e = false -> remote e = Some s -> requestExit s = false ->
  Close e = Ok (None, [EvCloseRequestExit; EvExitObserved],
                set_closeOnce true
                  (set_remote (Some (mkSealer true true (current s) (solvable s)
                                       (latest s) (rates s) (notify s) (results s))) e)).
Proof.
  intros H Hr Hq. unfold Close, Once_Do, teardown. rewrite H, Hr, Hq. reflexivity.
Qed.

End CloseFacts.

(** ** What a call on one engine can change *)

Ltac step_cases H :=
  unfold step, Seal, GetWork, SubmitWork, SubmitHashrate, Prune, Hashrate,
         Close, Once_Do, teardown, localRate, of_option, loop_exit in H;
  match type of H with
  | context [remote ?e] => destruct (remote e) as [?s|] eqn:?Hrem
  end;
  cbn in H;
  repeat (first [ progress simplify_eq/= | case_match ]).

Section StepFacts.

Lemma step_frame (c : Call) (e e' : Frkhash) :
  step c e = Ok e' ->
  config e' = config e /\ threads e' = threads e /\ update e' = update e
  /\ hashrate e' = hashrate e /\ shared e' = shared e /\ lock e' = lock e
  /\ fakeFail e' = fakeFail e /\ fakeDelay e' = fakeDelay e.
Proof.
  intros H. destruct c; step_cases H; repeat split; first [reflexivity | congruence].
Qed.

(** A call keeps the sealer's channels as they are, except [Close], which
    closes both and sets [closeOnce] with them. *)
Lemma step_ok (sh : option loc) (c : Call) (e e' : Frkhash) :
  engine_ok sh e -> step c e = Ok e' -> engine_ok sh e'.
Proof.
  intros (Hl & Hs & Hc) H.
  pose proof (step_frame c e e' H) as (_ & Ht & _ & _ & Hsh & Hlk & _).
  split; [congruence|]. split; [rewrite Hsh, Ht; exact Hs|].
  intros s' Hs'.
  destruct c; step_cases H;
    try (specialize (Hc _ eq_refl)); cbn in *;
    try (destruct Hc as [Hc1 Hc2]);
    rewrite ?(proj1 (pushWork_chans _ _)), ?(proj2 (pushWork_chans _ _)),
            ?(proj1 (submitWork_chans _ _ _ _ _)), ?(proj2 (submitWork_chans _ _ _ _ _)),
            ?(proj1 (submitHashrate_chans _ _ _ _)), ?(proj2 (submitHashrate_chans _ _ _ _));
    try (split; congruence); try (split; reflexivity); try (apply Hc; assumption).
Qed.

End StepFacts.

(** ** The store of engines *)

Section Store.

Lemma alloc_fresh (e : Frkhash) (w : World) : heap w !! fst (alloc e w) = None.
Proof. cbn. apply not_elem_of_dom, is_fresh. Qed.

Lemma alloc_lookup (e : Frkhash) (w : World) :
  heap (snd (alloc e w)) !! fst (alloc e w) = Some e.
Proof. cbn. apply lookup_insert_eq. Qed.

Lemma alloc_other (e e0 : Frkhash) (w : World) (l : loc) :
  heap w !! l = Some e0 -> heap (snd (alloc e w)) !! l = Some e0.
Proof.
  intros H. cbn. rewrite lookup_insert_ne; [exact H|].
  intros Heq. pose proof (alloc_fresh e w) as Hf. cbn in Hf. congruence.
Qed.

Lemma alloc_shared (e : Frkhash) (w : World) :
  sharedFrkhash (snd (alloc e w)) = sharedFrkhash w.
Proof. reflexivity. Qed.

(** Allocating an engine that is in order keeps the process in order. *)
Lemma alloc_invariant (e : Frkhash) (w : World) :
  invariant w -> engine_ok (sharedFrkhash w) e -> invariant (snd (alloc e w)).
Proof.
  intros [(s0 & e0 & Hsh & Hs0 & Hnone) Hall] Hok. split.
  - exists s0, e0. split; [exact Hsh|]. split; [|exact Hnone].
    now apply alloc_other.
  - intros l e1 Hl.
    change (heap (snd (alloc e w))) with (<[fst (alloc e w) := e]> (heap w)) in Hl.
    destruct (decide (fst (alloc e w) = l)) as [Heq|Hne].
    + rewrite Heq, lookup_insert_eq in Hl. now simplify_eq.
    + rewrite lookup_insert_ne in Hl by assumption. now apply (Hall l).
Qed.

Lemma store_invariant (l : loc) (e e' : Frkhash) (w : World) :
  invariant w -> heap w !! l = Some e -> shared e' = shared e ->
  engine_ok (sharedFrkhash w) e' -> invariant (store l e' w).
Proof.
  intros [(s0 & e0 & Hsh & Hs0 & Hnone) Hall] Hl Hshared Hok. split.
  - destruct (decide (l = s0)) as [->|Hne].
    + exists s0, e'. split; [exact Hsh|]. split; [apply lookup_insert_eq|].
      simplify_eq. congruence.
    + exists s0, e0. split; [exact Hsh|]. split; [|exact Hnone].
      change (heap (store l e' w)) with (<[l := e']> (heap w)).
      now rewrite lookup_insert_ne.
  - intros l1 e1 Hl1.
    change (heap (store l e' w)) with (<[l := e']> (heap w)) in Hl1.
    destruct (decide (l = l1)) as [->|Hne].
    + rewrite lookup_insert_eq in Hl1. now simplify_eq.
    + rewrite lookup_insert_ne in Hl1 by assumption. now apply (Hall l1).
Qed.

End Store.

(** ** [SetThreads] on the store *)

Section SetThreadsFacts.

(** The engine after its own thread count was set and the select ran. *)
Lemma Unlock_after_set (n : Z) (e : Frkhash) :
  lock e = false ->
  Unlock (set_update (try_send (update e)) (set_threads n (set_lock true e)))
  = set_update (try_send (update e)) (set_threads n e).
Proof. intros H. destruct e; cbn in *; subst; reflexivity. Qed.

Lemma Unlock_Lock (e : Frkhash) : lock e = false -> Unlock (set_lock true e) = e.
Proof. intros H. destruct e; cbn in *; subst; reflexivity. Qed.

(** Without a shared engine the count is written in place. *)
Lemma SetThreads_own (w : World) (l : loc) (e : Frkhash) (n : Z) :
  heap w !! l = Some e -> lock e = false -> shared e = None ->
  SetThreads l n w
  = Ok (store l (set_update (try_send (update e)) (set_threads n e)) w).
Proof.
  intros Hl Hlock Hsh. unfold SetThreads. cbn [SetThreads_rec].
  rewrite Hl. unfold Lock. rewrite Hlock. cbn.
  rewrite Hsh. cbn. rewrite lookup_insert_eq.
  unfold store. cbn. rewrite !insert_insert_eq.
  now rewrite Unlock_after_set.
Qed.

(** With a shared engine that has none itself, the count is written
    there and nowhere else. *)
Lemma SetThreads_shared (w : World) (l s : loc) (e es : Frkhash) (n : Z) :
  heap w !! l = Some e -> lock e = false -> shared e = Some s ->
  heap w !! s = Some es -> lock es = false -> shared es = None ->
  SetThreads l n w
  = Ok (store s (set_update (try_send (update es)) (set_threads n es)) w).
Proof.
  intros Hl Hlock Hsh Hs Hslock Hssh.
  assert (Hne : l <> s) by (intros ->; congruence).
  unfold SetThreads.
  destruct (size (heap w)) as [|k] eqn:Hsz.
  { apply map_size_empty_inv in Hsz. rewrite Hsz, lookup_empty in Hl. discriminate. }
  cbn [SetThreads_rec].
  rewrite Hl. unfold Lock. rewrite Hlock. cbn.
  rewrite Hsh. cbn.
  rewrite lookup_insert_ne by assumption. rewrite Hs.
  rewrite Hslock. cbn. rewrite Hssh. cbn.
  rewrite lookup_insert_eq. cbn.
  rewrite !lookup_insert_ne by congruence.
  rewrite lookup_insert_eq.
  unfold store. cbn. do 2 f_equal.
  rewrite Unlock_Lock by assumption.
  rewrite (Unlock_after_set n es) by assumption.
  apply map_eq. intros i.
  destruct (decide (i = l)) as [Hil|Hil]; destruct (decide (i = s)) as [His|His];
    simplify_map_eq; try reflexivity; congruence.
Qed.

(** In a process in order, [SetThreads] returns, and writes one engine: the
    caller if it has no shared engine, the package's shared engine
    otherwise. *)
Lemma SetThreads_target (w : World) (l : loc) (e : Frkhash) (n : Z) :
  invariant w -> heap w !! l = Some e ->
  exists t et,
    heap w !! t = Some et /\ shared et = None /\ lock et = false
    /\ (shared e = None /\ t = l \/ shared e = Some t /\ t <> l)
    /\ SetThreads l n w
       = Ok (store t (set_update (try_send (update et)) (set_threads n et)) w).
Proof.
  intros [(s0 & e0 & Hsh & Hs0 & Hnone) Hall] Hl.
  destruct (Hall l e Hl) as (Hlock & Hshared & _).
  destruct (Hall s0 e0 Hs0) as (Hlock0 & _ & _).
  destruct Hshared as [Hown|[Hsh' _]].
  - exists l, e. repeat split; try assumption; [now left|].
    now apply SetThreads_own.
  - exists s0, e0. rewrite Hsh in Hsh'.
    assert (s0 <> l) by (intros ->; congruence).
    repeat split; try assumption; [now right|].
    now apply (SetThreads_shared w l s0 e e0).
Qed.

End SetThreadsFacts.

(** ** Every reachable process is in order *)

Section Reachable.

Lemma engine_ok_fresh (sh : option loc) (cfg : Config) (up : option chan)
  (m : option Meter) (r : option remoteSealer) (f : N) (d : Z) :
  (forall s, r = Some s -> requestExit s = false /\ exitCh s = false) ->
  engine_ok sh (mkFrkhash cfg 0 up m r None f d false false)
  /\ engine_ok sh (mkFrkhash cfg 0 up m r sh f d false false).
Proof.
  intros Hr. split; (split; [reflexivity|]); (split; [|exact Hr]).
  - now left.
  - right. now split.
Qed.

Lemma New_invariant (cfg : Config) (ep : list string) (nv : bool) (w : World) :
  invariant w -> invariant (snd (New cfg ep nv w)).
Proof.
  intros Hinv. unfold New. apply alloc_invariant; [exact Hinv|].
  assert (Hr : forall s, Some (startRemoteSealer ep nv) = Some s ->
                         requestExit s = false /\ exitCh s = false).
  { intros s [= <-]. now split. }
  destruct (bool_decide (PowMode cfg = ModeShared)); cbn;
    eapply engine_ok_fresh; exact Hr.
Qed.

Lemma init_invariant : invariant init.
Proof.
  unfold init, New. cbn [bool_decide decide_rel Mode_eq_dec PowMode].
  set (e0 := set_remote _ _).
  assert (Hok : forall sh, engine_ok sh e0).
  { intros sh. split; [reflexivity|]. split; [now left|].
    intros s [= <-]. now split. }
  split.
  - exists (fst (alloc e0 (mkWorld ∅ None))), e0.
    split; [reflexivity|]. split; [apply alloc_lookup|reflexivity].
  - intros l e Hl. cbn in Hl.
    apply lookup_insert_Some in Hl as [[_ <-]|[_ Hl]]; [apply Hok|].
    rewrite lookup_empty in Hl. discriminate.
Qed.

Lemma act_invariant (a : Action) (w w' : World) :
  invariant w -> act a w = Ok w' -> invariant w'.
Proof.
  intros Hinv H. destruct a; cbn [act] in H.
  - injection H as <-. now apply New_invariant.
  - injection H as <-.
    exact (New_invariant {| PowMode := ModeTest; NotifyFull := false |}
                         endpoints noverify w Hinv).
  - injection H as <-. apply alloc_invariant; [exact Hinv|].
    now eapply engine_ok_fresh.
  - injection H as <-. apply alloc_invariant; [exact Hinv|].
    now eapply engine_ok_fresh.
  - injection H as <-. apply alloc_invariant; [exact Hinv|].
    now eapply engine_ok_fresh.
  - injection H as <-. apply alloc_invariant; [exact Hinv|].
    now eapply engine_ok_fresh.
  - injection H as <-. apply alloc_invariant; [exact Hinv|].
    cbn. now eapply engine_ok_fresh.
  - (* SetThreads *)
    destruct (heap w !! l) as [e|] eqn:Hl.
    + destruct (SetThreads_target w l e n Hinv Hl)
        as (t & et & Ht & Hnone & Hlk & _ & Hres).
      rewrite Hres in H. injection H as <-.
      apply (store_invariant t et); [exact Hinv|exact Ht|reflexivity|].
      destruct Hinv as [_ Hall]. destruct (Hall t et Ht) as (? & ? & Hc).
      split; [assumption|]. split; [now left|exact Hc].
    + unfold SetThreads in H. cbn [SetThreads_rec] in H.
      rewrite Hl in H. discriminate.
  - (* Threads *)
    destruct (Threads l w); cbn in H; now simplify_eq.
  - (* a call on one engine *)
    unfold on_engine in H. destruct (heap w !! l) as [e|] eqn:Hl; [|discriminate].
    destruct (step c e) as [e'| |] eqn:Hstep; cbn in H; [|discriminate..].
    injection H as <-.
    pose proof (step_frame c e e' Hstep) as (_ & _ & _ & _ & Hsh & _).
    apply (store_invariant l e); [exact Hinv|exact Hl|exact Hsh|].
    destruct Hinv as [_ Hall]. eapply step_ok; [apply (Hall l e Hl)|exact Hstep].
  - (* a Seal starts listening *)
    unfold on_engine, listen in H.
    destruct (heap w !! l) as [e|] eqn:Hl; [|discriminate].
    destruct (update e); cbn in H; [|discriminate]. injection H as <-.
    apply (store_invariant l e); [exact Hinv|exact Hl|reflexivity|].
    destruct Hinv as [_ Hall]. exact (Hall l e Hl).
  - (* the meter moves *)
    unfold on_engine, mark in H.
    destruct (heap w !! l) as [e|] eqn:Hl; [|discriminate].
    destruct (hashrate e); cbn in H; [|discriminate]. injection H as <-.
    apply (store_invariant l e); [exact Hinv|exact Hl|reflexivity|].
    destruct Hinv as [_ Hall]. exact (Hall l e Hl).
Qed.

Lemma reachable_invariant (w : World) : reachable w -> invariant w.
Proof.
  induction 1 as [|a w w' _ IH Hact]; [apply init_invariant|].
  now apply (act_invariant a w).
Qed.

End Reachable.

(** ** [Threads] and [SetThreads] *)

Lemma Threads_lookup (w : World) (l : loc) (e : Frkhash) :
  heap w !! l = Some e -> lock e = false -> Threads l w = Ok (threads e).
Proof.
  intros Hl Hlock. unfold Threads, Lock. rewrite Hl, Hlock. reflexivity.
Qed.

Lemma Threads_after_store (w : World) (l : loc) (e : Frkhash) (n : Z)
  (c : option chan) :
  lock e = false ->
  Threads l (store l (set_update c (set_threads n e)) w) = Ok n.
Proof.
  intros Hlock.
  rewrite (Threads_lookup _ l (set_update c (set_threads n e)));
    [reflexivity|apply lookup_insert_eq|exact Hlock].
Qed.

Lemma reachable_tester : reachable testerWorld.
Proof. exact (reach_act (ANewTester [] false) init _ reach_init eq_refl). Qed.

Lemma reachable_sharedWorld : reachable sharedWorld.
Proof. exact (reach_act ANewShared init _ reach_init eq_refl). Qed.

(** C7.  In every world a process can reach, for every engine and every
    integer n (zero and negative included): if the engine has no shared
    instance, SetThreads(n) returns, a following Threads() returns n, and the
    notification on [update] was handed over if a Seal was receiving and
    dropped otherwise; if the engine has a shared instance, the call is the
    call on that instance, which returns and sets its count. *)
Theorem SetThreads_sets_the_count (w : World) (l : loc) (e : Frkhash) (n : Z) :
  reachable w -> heap w !! l = Some e ->
  (shared e = None ->
     exists w' e',
       SetThreads l n w = Ok w' /\ Threads l w' = Ok n
       /\ heap w' !! l = Some e' /\ update e' = try_send (update e))
  /\ (forall s, shared e = Some s ->
        SetThreads l n w = SetThreads s n w
        /\ exists w', SetThreads s n w = Ok w' /\ Threads s w' = Ok n).
Proof.
  intros Hreach Hl. pose proof (reachable_invariant w Hreach) as Hinv.
  destruct (SetThreads_target w l e n Hinv Hl)
    as (t & et & Ht & Hnone & Hlk & Hcase & Hres).
  split.
  - intros Hown. destruct Hcase as [[_ ->]|[Hsh _]]; [|congruence].
    assert (et = e) by congruence. subst et.
    eexists _, _. split; [exact Hres|].
    split; [|split; [apply lookup_insert_eq|reflexivity]].
    now apply Threads_after_store.
  - intros s Hs. destruct Hcase as [[Hown _]|[Hsh Hne]]; [congruence|].
    assert (t = s) by congruence. subst t.
    rewrite Hres, (SetThreads_own w s et n Ht Hlk Hnone).
    split; [reflexivity|].
    eexists. split; [reflexivity|].
    now apply Threads_after_store.
Qed.

Lemma SetThreads_sets_the_count_witness :
  reachable testerWorld
  /\ heap testerWorld !! tester = Some testerEngine
  /\ shared testerEngine = None
  /\ exists w' e',
       SetThreads tester (-3) testerWorld = Ok w' /\ Threads tester w' = Ok (-3)%Z
       /\ heap w' !! tester = Some e'
       /\ update e' = try_send (update testerEngine).
Proof.
  assert (Hl : heap testerWorld !! tester = Some testerEngine) by reflexivity.
  split; [exact reachable_tester|]. split; [exact Hl|]. split; [reflexivity|].
  exact (proj1 (SetThreads_sets_the_count testerWorld tester testerEngine (-3)
                  reachable_tester Hl) eq_refl).
Defined.

(** C10.  In every world a process can reach, for an engine with a shared
    instance: its own Threads() returns 0; SetThreads(n) returns and leaves
    the engine itself as it was, so its Threads() returns the same value
    before and after; the shared instance, and no other engine, is written,
    and its Threads() returns n.  The world after the call is reachable
    again, so this holds whatever calls were made before. *)
Theorem SetThreads_shared_keeps_own_count (w : World) (l s : loc)
  (e : Frkhash) (n : Z) :
  reachable w -> heap w !! l = Some e -> shared e = Some s ->
  Threads l w = Ok 0%Z
  /\ exists w',
       SetThreads l n w = Ok w'
       /\ reachable w'
       /\ heap w' !! l = Some e
       /\ Threads l w' = Threads l w
       /\ Threads s w' = Ok n
       /\ forall l', l' <> s -> heap w' !! l' = heap w !! l'.
Proof.
  intros Hreach Hl Hs. pose proof (reachable_invariant w Hreach) as Hinv.
  destruct (proj2 Hinv l e Hl) as (Hlock & Hown & _).
  destruct Hown as [Hown|[_ Hzero]]; [congruence|].
  assert (H0 : Threads l w = Ok 0%Z).
  { rewrite (Threads_lookup w l e Hl Hlock). now rewrite Hzero. }
  split; [exact H0|].
  destruct (SetThreads_target w l e n Hinv Hl)
    as (t & et & Ht & Hnone & Hlk & Hcase & Hres).
  destruct Hcase as [[Hown _]|[Hsh Hne]]; [congruence|].
  assert (t = s) by congruence. subst t.
  eexists. split; [exact Hres|].
  assert (Hl' : heap (store s (set_update (try_send (update et)) (set_threads n et)) w)
                !! l = Some e).
  { cbn. now rewrite lookup_insert_ne. }
  split; [exact (reach_act (ASetThreads l n) w _ Hreach Hres)|].
  split; [exact Hl'|].
  split; [now rewrite (Threads_lookup _ l e Hl' Hlock), H0, Hzero|].
  split.
  - now apply Threads_after_store.
  - intros l' Hl'ne. cbn. now rewrite lookup_insert_ne.
Qed.

Lemma SetThreads_shared_keeps_own_count_witness :
  reachable sharedWorld
  /\ heap sharedWorld !! sharedLoc = Some (engine_at sharedLoc sharedWorld)
  /\ shared (engine_at sharedLoc sharedWorld) = Some 0
  /\ Threads sharedLoc sharedWorld = Ok 0%Z
  /\ exists w',
       SetThreads sharedLoc 8 sharedWorld = Ok w'
       /\ Threads sharedLoc w' = Ok 0%Z /\ Threads 0 w' = Ok 8%Z.
Proof.
  assert (Hl : heap sharedWorld !! sharedLoc = Some (engine_at sharedLoc sharedWorld))
    by reflexivity.
  assert (Hs : shared (engine_at sharedLoc sharedWorld) = Some 0) by reflexivity.
  split; [exact reachable_sharedWorld|]. split; [exact Hl|]. split; [exact Hs|].
  destruct (SetThreads_shared_keeps_own_count sharedWorld sharedLoc 0
              (engine_at sharedLoc sharedWorld) 8 reachable_sharedWorld Hl Hs)
    as (H0 & w' & Hres & _ & _ & Hsame & Hn & _).
  split; [exact H0|].
  exists w'. split; [exact Hres|]. split; [now rewrite Hsame|exact Hn].
Defined.

(** ** [Close] under any interleaving of its callers *)

Section ConcurrentClose.

Import Concurrent.

Lemma num_cons (q x : pc) (l : list pc) :
  num q (x :: l) = (if decide (x = q) then 1 else 0) + num q l.
Proof.
  unfold num. rewrite filter_cons. destruct (decide (x = q)); reflexivity.
Qed.

(** Moving one caller from [p] to [p']. *)
Lemma num_insert (q p p' : pc) (l : list pc) (i : nat) :
  l !! i = Some p ->
  num q (<[i := p']> l) + (if decide (p = q) then 1 else 0)
  = num q l + (if decide (p' = q) then 1 else 0).
Proof.
  revert i. induction l as [|x l IH]; intros i Hi; [discriminate|].
  destruct i as [|i]; cbn in Hi.
  - injection Hi as ->. change (<[0 := p']> (p :: l)) with (p' :: l).
    rewrite !num_cons. repeat case_decide; lia.
  - change (<[S i := p']> (x :: l)) with (x :: <[i := p']> l).
    rewrite !num_cons. specialize (IH i Hi). repeat case_decide; lia.
Qed.

Lemma num_pos (p : pc) (l : list pc) (i : nat) : l !! i = Some p -> 1 <= num p l.
Proof.
  revert i. induction l as [|x l IH]; intros i Hi; [discriminate|].
  rewrite num_cons. destruct i as [|i]; cbn in Hi.
  - injection Hi as ->. rewrite decide_True by reflexivity. lia.
  - specialize (IH i Hi). case_decide; lia.
Qed.

Lemma num_exists (p : pc) (l : list pc) : 1 <= num p l -> exists i, l !! i = Some p.
Proof.
  induction l as [|x l IH]; [cbn; lia|].
  rewrite num_cons. destruct (decide (x = p)) as [->|Hne]; intros H.
  - now exists 0.
  - destruct IH as [i Hi]; [lia|]. now exists (S i).
Qed.

Lemma num_repeat (p : pc) (k : nat) : p <> AtDo -> num p (repeat AtDo k) = 0.
Proof.
  intros Hne. induction k as [|k IH]; [reflexivity|].
  cbn [repeat]. rewrite num_cons, IH. rewrite decide_False by congruence. reflexivity.
Qed.

Ltac moved H p' :=
  pose proof (num_pos _ _ _ H) as Npos;
  pose proof (num_insert InBody _ p' _ _ H) as Nbody;
  pose proof (num_insert Waiting _ p' _ _ H) as Nwait;
  pose proof (num_insert Returned _ p' _ _ H) as Nret;
  repeat (case_decide; try congruence).

Ltac stages Hst :=
  destruct Hst as [(Hbf & [Hs|[Hs|Hs]])|Hs];
  [ destruct Hs as (S1 & S2 & S3 & S4 & S5 & S6 & S7)
  | destruct Hs as (S1 & S2 & S3 & S4 & S5 & S6 & S7)
  | destruct Hs as (S1 & S2 & S3 & S4 & S5 & S6 & S7)
  | destruct Hs as (S1 & S2 & S3 & S4 & S5 & S6) ].

Ltac absurd_stage Hr :=
  first [ congruence | lia
        | match goal with
          | H : forall s, _ = Some s -> _ /\ _ |- _ => destruct (H _ Hr); congruence
          end ].

(** The stages are closed under the steps. *)
Lemma step_stage (before : bool) (c c' : conf) :
  stage before c -> step c c' -> stage before c'.
Proof.
  intros Hst Hstep. unfold stage, fresh_stage, body_stage, wait_stage, done_stage in *.
  destruct Hstep as [i c Hpc Hc|i c Hpc Hc Hb|i c Hpc Hr|i c s Hpc Hr Hq
                    |i c s Hpc Hr Hx|c s Hr Hq Hx]; cbn [eng busy pcs closes].
  - (* fast *)
    stages Hst; try congruence.
    right. moved Hpc Returned.
    repeat split; try assumption; try lia; eapply S6; eassumption.
  - (* enter *)
    stages Hst; try congruence.
    left. split; [exact Hbf|]. right. left. moved Hpc InBody.
    repeat split; try assumption; try lia; eapply S7; eassumption.
  - (* the function returns at once *)
    pose proof (num_pos _ _ _ Hpc) as Hpos.
    stages Hst; try lia.
    right. moved Hpc Returned. subst before. cbn. rewrite Hr.
    repeat split; try reflexivity; try lia; congruence.
  - (* close(requestExit) *)
    pose proof (num_pos _ _ _ Hpc) as Hpos.
    stages Hst; try lia.
    left. split; [exact Hbf|]. right. right. moved Hpc Waiting.
    repeat split; try assumption; try lia.
    eexists. split; reflexivity.
  - (* the wait is over *)
    pose proof (num_pos _ _ _ Hpc) as Hpos.
    stages Hst; try lia.
    right. moved Hpc Returned. subst before. cbn. rewrite Hr.
    destruct S7 as (s' & Hs' & Hq').
    repeat split; try reflexivity; try lia; congruence.
  - (* the sealer leaves *)
    stages Hst; try absurd_stage Hr.
    left. split; [exact Hbf|]. right. right.
    repeat split; try assumption.
    eexists. split; [reflexivity|]. unfold loop_exit. now rewrite Hq.
Qed.

Lemma start_stage (e : Frkhash) (k : nat) :
  (forall s, remote e = Some s ->
     requestExit s = closeOnce e /\ exitCh s = closeOnce e) ->
  stage (closeOnce e) (start e k).
Proof.
  intros Hch. unfold stage, fresh_stage, done_stage, start.
  cbn [eng busy pcs closes].
  rewrite !num_repeat by discriminate.
  destruct (closeOnce e) eqn:Hc.
  - right. repeat split; try reflexivity; eapply Hch; eassumption.
  - left. split; [reflexivity|]. left.
    repeat split; try reflexivity; eapply Hch; eassumption.
Qed.

Lemma steps_stage (before : bool) (c c' : conf) :
  stage before c -> rtc step c c' -> stage before c'.
Proof.
  intros Hst Hrtc. induction Hrtc as [|c c1 c2 Hs _ IH]; [exact Hst|].
  apply IH. now apply (step_stage before c).
Qed.

(** What the stages give: no caller ever closes a closed channel;
    [requestExit] is closed at most once; a caller that is back finds the
    flag set and the sealer gone; and as long as a caller is not back, some
    party can move. *)
Lemma stage_safe (before : bool) (c : conf) :
  stage before c ->
  ~ panics c
  /\ closes c <= 1
  /\ (forall i, pcs c !! i = Some Returned ->
        closeOnce (eng c) = true
        /\ (before = false ->
            closes c = match remote (eng c) with Some _ => 1 | None => 0 end)
        /\ forall s, remote (eng c) = Some s ->
             requestExit s = true /\ exitCh s = true)
  /\ (forall i p, pcs c !! i = Some p -> p <> Returned -> exists c', step c c').
Proof.
  intros Hst. unfold stage, fresh_stage, body_stage, wait_stage, done_stage in Hst.
  split; [|split; [|split]].
  - intros (i & s & Hpc & Hr & Hq). pose proof (num_pos _ _ _ Hpc) as Hpos.
    stages Hst; absurd_stage Hr.
  - stages Hst; try lia.
    rewrite S5. destruct before; [lia|]. destruct (remote (eng c)); lia.
  - intros i Hpc. pose proof (num_pos _ _ _ Hpc) as Hpos.
    stages Hst; try lia.
    split; [exact S1|]. split; [|exact S6].
    intros ->. exact S5.
  - intros i p Hpc Hp.
    assert (Hcases : p = AtDo \/ p = InBody \/ p = Waiting)
      by (destruct p; auto; congruence).
    pose proof (num_pos _ _ _ Hpc) as Hpos.
    stages Hst.
    + destruct Hcases as [ -> | [ -> | -> ] ]; [|lia..].
      eexists. exact (step_enter i c Hpc S1 S2).
    + destruct (num_exists InBody (pcs c)) as [j Hj]; [lia|].
      destruct (remote (eng c)) as [s|] eqn:Hr.
      * eexists. exact (step_close j c s Hj Hr (proj1 (S7 s eq_refl))).
      * eexists. exact (step_nil j c Hj Hr).
    + destruct S7 as (s & Hs & Hq).
      destruct (num_exists Waiting (pcs c)) as [j Hj]; [lia|].
      destruct (exitCh s) eqn:Hx.
      * eexists. exact (step_wait j c s Hj Hs Hx).
      * eexists. exact (step_sealer c s Hs Hq Hx).
    + destruct Hcases as [ -> | [ -> | -> ] ]; [|lia..].
      eexists. exact (step_fast i c Hpc S1).
Qed.


(** One caller alone goes through the steps of the sequential [Close]. *)
Lemma Close_as_steps (e : Frkhash) (s : remoteSealer) :
  closeOnce e = false -> remote e = Some s ->
  requestExit s = false -> exitCh s = false ->
  exists e1,
    Close e = Ok (None, [EvCloseRequestExit; EvExitObserved], e1)
    /\ rtc Concurrent.step (Concurrent.start e 1)
           (Concurrent.mkConf e1 false [Concurrent.Returned] 1).
Proof.
  intros Hc Hr Hq Hx. eexists. split; [exact (Close_first_remote e s Hc Hr Hq)|].
  eapply rtc_l.
  { exact (step_enter 0 (start e 1) eq_refl Hc eq_refl). }
  eapply rtc_l.
  { exact (step_close 0 (mkConf e true [InBody] 0) s eq_refl Hr Hq). }
  eapply rtc_l.
  { exact (step_sealer (mkConf (set_remote (Some (closeRequestExit s)) e) true [Waiting] 1)
                       (closeRequestExit s) eq_refl eq_refl Hx). }
  eapply rtc_l.
  { exact (step_wait 0 (mkConf (set_remote (Some (loop_exit (closeRequestExit s)))
                                           (set_remote (Some (closeRequestExit s)) e))
                               true [Waiting] 1)
                     (loop_exit (closeRequestExit s)) eq_refl eq_refl eq_refl). }
  apply rtc_refl.
Qed.

End ConcurrentClose.

(** ** [Close], call after call *)

Lemma Closes_done (k : nat) (e : Frkhash) :
  closeOnce e = true -> Closes k e = Ok (repeat None k, [], e).
Proof.
  intros H. induction k as [|k IH]; [reflexivity|].
  cbn [Closes]. rewrite (Close_done e H). cbn. rewrite IH. reflexivity.
Qed.

Lemma reachable_tester_engine :
  heap testerWorld !! tester = Some testerEngine.
Proof. vm_compute. reflexivity. Qed.

(** C8.  In every world a process can reach, for every engine.  Called any
    number of times in a row, Close() returns a nil error every time; all
    that is done to the sealer's channels is done by the first call, which
    closes [requestExit] once and waits for [exitCh] if the engine was not
    closed before and has a sealer, and does nothing otherwise; after the
    first call the engine is closed, its sealer has left, and a further call
    returns nil and leaves the engine as it is.  Called from any number of
    goroutines at once, under every interleaving of their steps: no caller
    closes a closed channel, [requestExit] is closed at most once, a caller
    that has returned finds the engine closed and the sealer gone (and
    [requestExit] closed exactly once if the engine has a sealer and was not
    closed before), and as long as a caller has not returned some party can
    move, so that no caller is stuck for ever. *)
Theorem Close_is_idempotent (w : World) (l : loc) (e : Frkhash) (n : nat) :
  reachable w -> heap w !! l = Some e ->
  exists evs e1,
    Close e = Ok (None, evs, e1)
    /\ Closes (S n) e = Ok (repeat None (S n), evs, e1)
    /\ Close e1 = Ok (None, [], e1)
    /\ closeOnce e1 = true
    /\ (forall s1, remote e1 = Some s1 -> requestExit s1 = true /\ exitCh s1 = true)
    /\ evs = (if closeOnce e then []
              else match remote e with
                   | Some _ => [EvCloseRequestExit; EvExitObserved]
                   | None => []
                   end)
    /\ closes_of evs <= 1
    /\ forall (k : nat) (c : Concurrent.conf),
         rtc Concurrent.step (Concurrent.start e k) c ->
         ~ Concurrent.panics c
         /\ Concurrent.closes c <= 1
         /\ (forall i, Concurrent.pcs c !! i = Some Concurrent.Returned ->
               closeOnce (Concurrent.eng c) = true
               /\ (closeOnce e = false ->
                   Concurrent.closes c
                   = match remote (Concurrent.eng c) with Some _ => 1 | None => 0 end)
               /\ forall s, remote (Concurrent.eng c) = Some s ->
                    requestExit s = true /\ exitCh s = true)
         /\ (forall i p, Concurrent.pcs c !! i = Some p ->
               p <> Concurrent.Returned -> exists c', Concurrent.step c c').
Proof.
  intros Hreach Hl.
  destruct (proj2 (reachable_invariant w Hreach) l e Hl) as (_ & _ & Hch).
  assert (Hconc : forall (k : nat) (c : Concurrent.conf),
         rtc Concurrent.step (Concurrent.start e k) c ->
         ~ Concurrent.panics c
         /\ Concurrent.closes c <= 1
         /\ (forall i, Concurrent.pcs c !! i = Some Concurrent.Returned ->
               closeOnce (Concurrent.eng c) = true
               /\ (closeOnce e = false ->
                   Concurrent.closes c
                   = match remote (Concurrent.eng c) with Some _ => 1 | None => 0 end)
               /\ forall s, remote (Concurrent.eng c) = Some s ->
                    requestExit s = true /\ exitCh s = true)
         /\ (forall i p, Concurrent.pcs c !! i = Some p ->
               p <> Concurrent.Returned -> exists c', Concurrent.step c c')).
  { intros k c Hsteps. apply stage_safe.
    apply (steps_stage _ (Concurrent.start e k)); [|exact Hsteps].
    now apply start_stage. }
  assert (Hdone : forall e1 evs,
            Close e = Ok (None, evs, e1) -> closeOnce e1 = true ->
            Closes (S n) e = Ok (repeat None (S n), evs, e1)
            /\ Close e1 = Ok (None, [], e1) /\ closeOnce e1 = true).
  { intros e1 evs HC H1. split; [|split; [now apply Close_done|exact H1]].
    cbn [Closes]. rewrite HC. cbn. rewrite (Closes_done n e1 H1). cbn.
    now rewrite app_nil_r. }
  destruct (closeOnce e) eqn:Hc.
  - (* closed before *)
    exists [], e. pose proof (Close_done e Hc) as HC.
    destruct (Hdone e [] HC Hc) as (H1 & H2 & H3).
    split; [exact HC|]. split; [exact H1|]. split; [exact H2|]. split; [exact H3|].
    split; [|split; [reflexivity|split; [vm_compute; lia|exact Hconc]]].
    intros s1 Hs1. destruct (Hch s1 Hs1) as [-> ->]. now split.
  - destruct (remote e) as [s|] eqn:Hr.
    + (* first call, with a sealer *)
      destruct (Hch s eq_refl) as [Hq _].
      pose proof (Close_first_remote e s Hc Hr Hq) as HC.
      destruct (Hdone _ _ HC eq_refl) as (H1 & H2 & H3).
      eexists _, _. split; [exact HC|]. split; [exact H1|]. split; [exact H2|]. split; [exact H3|].
      split; [|split; [reflexivity|split; [vm_compute; lia|exact Hconc]]].
      intros s1 [= <-]. now split.
    + (* first call, without a sealer *)
      pose proof (Close_first_nil e Hc Hr) as HC.
      destruct (Hdone _ _ HC eq_refl) as (H1 & H2 & H3).
      eexists _, _. split; [exact HC|]. split; [exact H1|]. split; [exact H2|]. split; [exact H3|].
      split; [|split; [reflexivity|split; [vm_compute; lia|exact Hconc]]].
      intros s1 Hs1. cbn in Hs1. congruence.
Qed.

Lemma Close_is_idempotent_witness :
  reachable testerWorld /\ heap testerWorld !! tester = Some testerEngine
  /\ exists evs e1,
       Close testerEngine = Ok (None, evs, e1)
       /\ Closes 3 testerEngine = Ok ([None; None; None], evs, e1)
       /\ Close e1 = Ok (None, [], e1)
       /\ closes_of evs <= 1.
Proof.
  split; [exact reachable_tester|]. split; [exact reachable_tester_engine|].
  destruct (Close_is_idempotent testerWorld tester testerEngine 2
              reachable_tester reachable_tester_engine)
    as (evs & e1 & H1 & H2 & H3 & _ & _ & _ & H4 & _).
  exists evs, e1. split; [exact H1|]. split; [exact H2|]. split; [exact H3|exact H4].
Defined.

(** ** [Hashrate] *)

(** TestFrkhashHashrate on the model: nothing at first, 600 after the three
    reports. *)
Lemma ratedTester_built : run threeRates testerEngine = Ok ratedTester.
Proof. vm_compute. reflexivity. Qed.

Lemma sharedModeEngine_built :
  run threeRates (engine_at sharedModeLoc sharedModeWorld) = Ok sharedModeEngine.
Proof. vm_compute. reflexivity. Qed.

Lemma TestFrkhashHashrate_run :
  fst <$> Hashrate 0 testerEngine = Ok 0%float
  /\ fst <$> Hashrate 2 ratedTester = Ok 600%float.
Proof. split; vm_compute; reflexivity. Qed.

(** C2, as the code has it.  For every engine with a meter: in Normal or Test
    mode, with its coordinator attached, Hashrate() returns the local meter
    rate plus the coordinator's aggregate of reported rates while the
    coordinator runs, and the local rate alone, without waiting, once the
    coordinator has exited; in Shared, Fake or FullFake mode it returns the
    local rate alone. *)
Theorem Hashrate_by_mode (now : Z) (e : Frkhash) (m : Meter) :
  hashrate e = Some m ->
  match PowMode (config e) with
  | ModeNormal | ModeTest =>
      forall s, remote e = Some s ->
        fst <$> Hashrate now e =
        Ok (if exitCh s then Rate1 m
            else (Rate1 m + float_of_uint64 (fst (aggregateHashrate now s)))%float)
  | ModeShared | ModeFake | ModeFullFake =>
      fst <$> Hashrate now e = Ok (Rate1 m)
  end.
Proof.
  intros Hm. unfold Hashrate, localRate. rewrite Hm.
  destruct (PowMode (config e)); cbn; try reflexivity;
    intros s ->; destruct (exitCh s); reflexivity.
Qed.

Lemma Hashrate_by_mode_witness :
  hashrate ratedTester = Some NewMeterForced
  /\ fst <$> Hashrate 2 ratedTester =
     Ok (0 + float_of_uint64 (fst (aggregateHashrate 2 (sealer_of ratedTester))))%float.
Proof.
  assert (Hm : hashrate ratedTester = Some NewMeterForced) by reflexivity.
  split; [exact Hm|].
  exact (Hashrate_by_mode 2 ratedTester NewMeterForced Hm (sealer_of ratedTester) eq_refl).
Defined.

(** Engines without a meter: one made by [NewFaker] has none, and one made by
    [NewShared] has neither meter nor sealer (and the zero mode, which is
    Normal); on both, Hashrate() dereferences nil. *)
Lemma Hashrate_without_meter_panics (now : Z) :
  Hashrate now (engine_at (fst (NewFaker init)) (snd (NewFaker init))) = Panic
  /\ Hashrate now (engine_at sharedLoc sharedWorld) = Panic.
Proof. split; reflexivity. Qed.

(** C2, as stated, fails in Shared mode: an engine made by [New] in that mode
    has a running coordinator whose aggregate is 600, and a meter that reads
    0; Hashrate() returns 0, not 0 + 600. *)
Lemma Hashrate_shared_mode_is_local_only :
  PowMode (config sharedModeEngine) = ModeShared
  /\ (exists s, remote sharedModeEngine = Some s /\ exitCh s = false
                /\ fst (aggregateHashrate 2 s) = 600%N)
  /\ localRate sharedModeEngine = Ok 0%float
  /\ fst <$> Hashrate 2 sharedModeEngine = Ok 0%float
  /\ fst <$> Hashrate 2 sharedModeEngine
     <> Ok (0 + float_of_uint64 600)%float.
Proof.
  split; [reflexivity|].
  split.
  { exists (sealer_of sharedModeEngine).
    split; [reflexivity|]. split; vm_compute; reflexivity. }
  split; [vm_compute; reflexivity|].
  split; [vm_compute; reflexivity|].
  intros H.
  apply (f_equal (fun o => match o with
                           | Ok x => PrimFloat.eqb x 0%float
                           | _ => false
                           end)) in H.
  vm_compute in H. discriminate H.
Qed.

(** ** The coordinator over a run of the process *)

Section Coordinator.

(** A call on a stopped engine leaves it stopped. *)
Lemma step_stopped (c : Call) (e e' : Frkhash) :
  step c e = Ok e' -> stopped e -> stopped e'.
Proof.
  intros H (s & Hs & Hx). unfold stopped.
  destruct c; step_cases H; cbn; simplify_eq;
    try (eexists; split; [reflexivity|]); cbn;
    rewrite ?(proj2 (pushWork_chans _ _)), ?(proj2 (submitWork_chans _ _ _ _ _)),
            ?(proj2 (submitHashrate_chans _ _ _ _));
    try assumption; try reflexivity; eauto.
Qed.

(** A call other than Seal and Close leaves an idle engine idle. *)
Lemma step_idle (c : Call) (e e' : Frkhash) :
  step c e = Ok e' -> (forall h, c <> CSeal h) -> c <> CClose ->
  idle e -> idle e'.
Proof.
  intros H Hseal Hclose (s & Hs & Hx & Hlat). unfold idle.
  destruct c; try (now contradiction (Hseal h)); try contradiction;
    step_cases H; cbn; simplify_eq;
    try (eexists; split; [reflexivity|]); cbn; eauto.
  - unfold submitWork. unfold exited. rewrite Hx.
    repeat case_match; cbn; eauto.
  - unfold submitHashrate, exited. rewrite Hx. cbn. eauto.
Qed.

(** What an action of the process does to one engine: either it is a call on
    that engine, or the engine keeps its sealer and its [closeOnce]. *)
Lemma act_effect (a : Action) (w w' : World) (l : loc) (e : Frkhash) :
  invariant w -> act a w = Ok w' -> heap w !! l = Some e ->
  exists e', heap w' !! l = Some e'
    /\ ((remote e' = remote e /\ closeOnce e' = closeOnce e)
        \/ exists c, a = ACall l c /\ step c e = Ok e').
Proof.
  intros Hinv H Hl.
  assert (Hkeep : forall e0, w' = snd (alloc e0 w) ->
            exists e', heap w' !! l = Some e'
              /\ ((remote e' = remote e /\ closeOnce e' = closeOnce e)
                  \/ exists c, a = ACall l c /\ step c e = Ok e')).
  { intros e0 ->. exists e. split; [now apply alloc_other|now left]. }
  assert (Hstore : forall l0 e0 e0', w' = store l0 e0' w -> heap w !! l0 = Some e0 ->
            remote e0' = remote e0 -> closeOnce e0' = closeOnce e0 ->
            exists e', heap w' !! l = Some e'
              /\ ((remote e' = remote e /\ closeOnce e' = closeOnce e)
                  \/ exists c, a = ACall l c /\ step c e = Ok e')).
  { intros l0 e0 e0' -> Hl0 Hr Hc.
    change (heap (store l0 e0' w)) with (<[l0 := e0']> (heap w)).
    destruct (decide (l0 = l)) as [->|Hne].
    - exists e0'. rewrite lookup_insert_eq. split; [reflexivity|].
      left. simplify_eq. now split.
    - exists e. rewrite lookup_insert_ne by assumption. split; [exact Hl|now left]. }
  destruct a; cbn [act] in H.
  - injection H as <-. eapply Hkeep. reflexivity.
  - injection H as <-. eapply Hkeep. reflexivity.
  - injection H as <-. eapply Hkeep. reflexivity.
  - injection H as <-. eapply Hkeep. reflexivity.
  - injection H as <-. eapply Hkeep. reflexivity.
  - injection H as <-. eapply Hkeep. reflexivity.
  - injection H as <-. eapply Hkeep. reflexivity.
  - destruct (heap w !! l0) as [e0|] eqn:Hl0.
    + destruct (SetThreads_target w l0 e0 n Hinv Hl0)
        as (t & et & Ht & _ & _ & _ & Hres).
      rewrite Hres in H. injection H as <-.
      eapply (Hstore t et); [reflexivity|exact Ht|reflexivity|reflexivity].
    + unfold SetThreads in H. cbn [SetThreads_rec] in H.
      rewrite Hl0 in H. discriminate.
  - destruct (Threads l0 w); cbn in H; simplify_eq.
    exists e. split; [exact Hl|now left].
  - unfold on_engine in H. destruct (heap w !! l0) as [e0|] eqn:Hl0; [|discriminate].
    destruct (step c e0) as [e0'| |] eqn:Hstep; cbn in H; [|discriminate..].
    injection H as <-.
    change (heap (store l0 e0' w)) with (<[l0 := e0']> (heap w)).
    destruct (decide (l0 = l)) as [->|Hne].
    + exists e0'. rewrite lookup_insert_eq. split; [reflexivity|].
      right. exists c. simplify_eq. now split.
    + exists e. rewrite lookup_insert_ne by assumption. split; [exact Hl|now left].
  - unfold on_engine, listen in H.
    destruct (heap w !! l0) as [e0|] eqn:Hl0; [|discriminate].
    destruct (update e0); cbn in H; [|discriminate]. injection H as <-.
    eapply (Hstore l0 e0); [reflexivity|exact Hl0|reflexivity|reflexivity].
  - unfold on_engine, mark in H.
    destruct (heap w !! l0) as [e0|] eqn:Hl0; [|discriminate].
    destruct (hashrate e0); cbn in H; [|discriminate]. injection H as <-.
    eapply (Hstore l0 e0); [reflexivity|exact Hl0|reflexivity|reflexivity].
Qed.

Lemma stopped_ext (e e' : Frkhash) :
  remote e' = remote e -> stopped e -> stopped e'.
Proof. intros Hr (s & Hs & Hx). exists s. split; congruence. Qed.

Lemma idle_ext (e e' : Frkhash) :
  remote e' = remote e -> idle e -> idle e'.
Proof. intros Hr (s & Hs & Hx). exists s. split; [congruence|exact Hx]. Qed.

(** Once stopped, stopped whatever the process does next. *)
Lemma perform_stopped (acts : list Action) (w w' : World) (l : loc) (e : Frkhash) :
  invariant w -> perform acts w = Ok w' -> heap w !! l = Some e -> stopped e ->
  exists e', heap w' !! l = Some e' /\ stopped e'.
Proof.
  revert w e. induction acts as [|a acts IH]; intros w e Hinv H Hl Hst.
  - cbn in H. injection H as <-. now exists e.
  - cbn [perform] in H. destruct (act a w) as [w1| |] eqn:Ha; cbn in H; [|discriminate..].
    destruct (act_effect a w w1 l e Hinv Ha Hl) as (e1 & Hl1 & Hcase).
    apply (IH w1 e1); [now apply (act_invariant a w)|exact H|exact Hl1|].
    destruct Hcase as [[Hr _]|(c & _ & Hstep)].
    + now apply (stopped_ext e).
    + now apply (step_stopped c e).
Qed.

(** Idle as long as the process neither hands work to the engine nor closes
    it. *)
Lemma perform_idle (acts : list Action) (w w' : World) (l : loc) (e : Frkhash) :
  invariant w -> perform acts w = Ok w' -> heap w !! l = Some e -> idle e ->
  (forall h, ACall l (CSeal h) ∉ acts) -> ACall l CClose ∉ acts ->
  exists e', heap w' !! l = Some e' /\ idle e'.
Proof.
  revert w e. induction acts as [|a acts IH]; intros w e Hinv H Hl Hid Hseal Hclose.
  - cbn in H. injection H as <-. now exists e.
  - cbn [perform] in H. destruct (act a w) as [w1| |] eqn:Ha; cbn in H; [|discriminate..].
    destruct (act_effect a w w1 l e Hinv Ha Hl) as (e1 & Hl1 & Hcase).
    apply (IH w1 e1); [now apply (act_invariant a w)|exact H|exact Hl1| | |].
    + destruct Hcase as [[Hr _]|(c & -> & Hstep)].
      * now apply (idle_ext e).
      * apply (step_idle c e); [exact Hstep| | |exact Hid].
        -- intros h ->. apply (Hseal h). left.
        -- intros ->. apply Hclose. left.
    + intros h Hin. apply (Hseal h). now right.
    + intros Hin. apply Hclose. now right.
Qed.

End Coordinator.

(** ** After [Close], and before any work *)

Lemma Close_closes (e e1 : Frkhash) (err : option error) (evs : list event) :
  Close e = Ok (err, evs, e1) ->
  err = None /\ closeOnce e1 = true /\ (is_Some (remote e) -> is_Some (remote e1)).
Proof.
  unfold Close, Once_Do, teardown. intros H.
  destruct (closeOnce e) eqn:Hc; cbn in H.
  - simplify_eq. auto.
  - destruct (remote e) as [s|] eqn:Hr; cbn in H.
    + destruct (requestExit s); [discriminate|]. cbn in H. simplify_eq.
      split; [reflexivity|]. split; [reflexivity|]. intros _. cbn. eauto.
    + simplify_eq. split; [reflexivity|]. split; [reflexivity|].
      intros [? ?]. discriminate.
Qed.

Lemma stopped_answers (e : Frkhash) :
  stopped e ->
  GetWork e = Some (inl errEthashStopped)
  /\ forall r id now, fst <$> SubmitHashrate r id now e = Some false.
Proof.
  intros (s & Hs & Hx). unfold GetWork, SubmitHashrate.
  rewrite Hs. cbn. unfold currentWork, submitHashrate, exited. rewrite Hx.
  split; [reflexivity|]. intros; reflexivity.
Qed.

(** C5, for the engines that have a coordinator.  In every world a process
    can reach, for every engine with a coordinator: once Close() on it has
    returned, and whatever the process does afterwards, GetWork on that
    engine returns the stopped-engine error and SubmitHashrate returns
    false. *)
Theorem closed_engine_answers (w w1 w2 : World) (l : loc) (e : Frkhash)
  (acts : list Action) :
  reachable w -> heap w !! l = Some e -> is_Some (remote e) ->
  act (ACall l CClose) w = Ok w1 ->
  perform acts w1 = Ok w2 ->
  exists e2, heap w2 !! l = Some e2
    /\ GetWork e2 = Some (inl errEthashStopped)
    /\ forall r id now, fst <$> SubmitHashrate r id now e2 = Some false.
Proof.
  intros Hreach Hl Hrem Hclose Hrun.
  pose proof (reachable_invariant w Hreach) as Hinv.
  pose proof (act_invariant _ _ _ Hinv Hclose) as Hinv1.
  assert (H1 : exists e1, heap w1 !! l = Some e1 /\ stopped e1).
  { cbn [act] in Hclose. unfold on_engine in Hclose. rewrite Hl in Hclose.
    cbn [step] in Hclose.
    destruct (Close e) as [[[err evs] e1]| |] eqn:HC; cbn in Hclose; [|discriminate..].
    injection Hclose as <-.
    exists e1. split; [apply lookup_insert_eq|].
    destruct (Close_closes e e1 err evs HC) as (_ & Hc1 & Hr1).
    destruct (Hr1 Hrem) as [s1 Hs1].
    destruct (proj2 Hinv1 l e1 (lookup_insert_eq _ _ _)) as (_ & _ & Hch).
    exists s1. split; [exact Hs1|].
    destruct (Hch s1 Hs1) as [_ ->]. exact Hc1. }
  destruct H1 as (e1 & Hl1 & Hst1).
  destruct (perform_stopped acts w1 w2 l e1 Hinv1 Hrun Hl1 Hst1) as (e2 & Hl2 & Hst2).
  exists e2. split; [exact Hl2|]. now apply stopped_answers.
Qed.

Lemma closed_engine_answers_witness :
  exists w1 w2 e2,
    act (ACall tester CClose) testerWorld = Ok w1
    /\ perform [ACall tester (CSeal header100); ASetThreads tester 2;
                ACall tester CClose] w1 = Ok w2
    /\ heap w2 !! tester = Some e2
    /\ GetWork e2 = Some (inl errEthashStopped)
    /\ fst <$> SubmitHashrate 100 (minerId 0xa) 1 e2 = Some false.
Proof.
  set (acts := [ACall tester (CSeal header100); ASetThreads tester 2;
                ACall tester CClose]).
  destruct (act (ACall tester CClose) testerWorld) as [w1| |] eqn:H1;
    [|vm_compute in H1; discriminate H1..].
  destruct (perform acts w1) as [w2| |] eqn:H2;
    [|vm_compute in H1; injection H1 as <-; vm_compute in H2; discriminate H2..].
  destruct (closed_engine_answers testerWorld w1 w2 tester testerEngine acts
              reachable_tester reachable_tester_engine (ex_intro _ _ eq_refl) H1 H2)
    as (e2 & Hl2 & Hg & Hs).
  exists w1, w2, e2. split; [reflexivity|]. split; [exact H2|].
  split; [exact Hl2|]. split; [exact Hg|apply Hs].
Defined.

(** C5, as stated, fails on an engine without a coordinator: one made by
    NewFaker can be closed like any other, Close() returns nil, and there is
    no coordinator to give the stopped-engine error or to refuse a hash
    rate. *)
Lemma closed_faker_has_no_coordinator :
  reachable (snd (NewFaker init))
  /\ exists w1 e1,
       act (ACall (fst (NewFaker init)) CClose) (snd (NewFaker init)) = Ok w1
       /\ heap w1 !! fst (NewFaker init) = Some e1
       /\ closeOnce e1 = true /\ remote e1 = None
       /\ GetWork e1 = None
       /\ GetWork e1 <> Some (inl errEthashStopped)
       /\ SubmitHashrate 100 (minerId 0xa) 1 e1 = None
       /\ fst <$> SubmitHashrate 100 (minerId 0xa) 1 e1 <> Some false.
Proof.
  split; [exact (reach_act ANewFaker init _ reach_init eq_refl)|].
  eexists _, _. split; [vm_compute; reflexivity|].
  split; [vm_compute; reflexivity|].
  split; [reflexivity|]. split; [reflexivity|]. split; [reflexivity|].
  split; [discriminate|]. split; [reflexivity|discriminate].
Qed.

(** C6, as the code and its tests have it.  In every world a process can
    reach, for every engine made by [New]: as long as the process has neither
    handed work to the engine nor closed it, whatever else it has done,
    GetWork on the engine fails with the no-mining-work error. *)
Theorem idle_engine_has_no_work (w w2 : World) (cfg : Config)
  (endpoints : list string) (noverify : bool) (acts : list Action) :
  reachable w ->
  perform acts (snd (New cfg endpoints noverify w)) = Ok w2 ->
  (forall h, ACall (fst (New cfg endpoints noverify w)) (CSeal h) ∉ acts) ->
  ACall (fst (New cfg endpoints noverify w)) CClose ∉ acts ->
  exists e2, heap w2 !! fst (New cfg endpoints noverify w) = Some e2
    /\ GetWork e2 = Some (inl errNoMiningWork).
Proof.
  intros Hreach Hrun Hseal Hclose.
  pose proof (reachable_invariant w Hreach) as Hinv.
  pose proof (New_invariant cfg endpoints noverify w Hinv) as Hinv1.
  set (e0 := set_remote (Some (startRemoteSealer endpoints noverify))
               (if bool_decide (PowMode cfg = ModeShared)
                then set_shared (sharedFrkhash w)
                       (mkFrkhash cfg 0 (Some (mkChan false 0)) (Some NewMeterForced)
                                  None None 0 0 false false)
                else mkFrkhash cfg 0 (Some (mkChan false 0)) (Some NewMeterForced)
                               None None 0 0 false false)).
  assert (Hl0 : heap (snd (New cfg endpoints noverify w))
                !! fst (New cfg endpoints noverify w) = Some e0)
    by apply alloc_lookup.
  assert (Hid : idle e0).
  { exists (startRemoteSealer endpoints noverify). subst e0.
    destruct (bool_decide (PowMode cfg = ModeShared)); now repeat split. }
  destruct (perform_idle acts _ w2 _ e0 Hinv1 Hrun Hl0 Hid Hseal Hclose)
    as (e2 & Hl2 & (s & Hs & Hx & Hlat)).
  exists e2. split; [exact Hl2|].
  unfold GetWork. rewrite Hs. cbn. unfold currentWork, exited.
  now rewrite Hx, Hlat.
Qed.

Lemma idle_engine_has_no_work_witness :
  exists w2 e2,
    perform [ASetThreads 1 4; ACall 1 (CSubmitHashrate 100 (minerId 0xa) 1);
             ACall 1 CGetWork] testerWorld = Ok w2
    /\ heap w2 !! 1 = Some e2
    /\ GetWork e2 = Some (inl errNoMiningWork).
Proof.
  set (acts := [ASetThreads 1 4; ACall 1 (CSubmitHashrate 100 (minerId 0xa) 1);
                ACall 1 CGetWork]).
  destruct (perform acts testerWorld) as [w2| |] eqn:H2;
    [|vm_compute in H2; discriminate H2..].
  assert (Hseal : forall h, ACall 1 (CSeal h) ∉ acts).
  { intros h Hin. repeat (apply elem_of_cons in Hin as [Hin|Hin]; [discriminate Hin|]).
    now apply elem_of_nil in Hin. }
  assert (Hclose : ACall 1 CClose ∉ acts).
  { intros Hin. repeat (apply elem_of_cons in Hin as [Hin|Hin]; [discriminate Hin|]).
    now apply elem_of_nil in Hin. }
  destruct (idle_engine_has_no_work init w2
              {| PowMode := ModeTest; NotifyFull := false |} [] false acts
              reach_init H2 Hseal Hclose) as (e2 & Hl2 & Hg).
  exists w2, e2. split; [reflexivity|]. split; [exact Hl2|exact Hg].
Defined.

(** C6, as stated, fails on the engine of TestFrkhashClosedRemoteSealer: made
    by NewTester, handed no work, then closed; GetWork returns the
    stopped-engine error, not the no-mining-work error. *)
Lemma closed_engine_without_work :
  exists w1 e1,
    perform [ACall tester CClose] testerWorld = Ok w1
    /\ heap w1 !! tester = Some e1
    /\ GetWork e1 = Some (inl errEthashStopped)
    /\ GetWork e1 <> Some (inl errNoMiningWork).
Proof.
  eexists _, _. split; [vm_compute; reflexivity|].
  split; [vm_compute; reflexivity|].
  split; [vm_compute; reflexivity|].
  vm_compute. intros H. discriminate H.
Qed.

(** ** Work packages *)

(** TestFrkhashRemoteSealer on the model: no work at first; the first package
    once pushed; a made-up solution is refused; the second package once
    pushed. *)
Lemma TestFrkhashRemoteSealer_run :
  GetWork testerEngine = Some (inl errNoMiningWork)
  /\ work_hash (GetWork (after [CSeal header100] testerEngine))
     = Some (SealHash header100)
  /\ fst <$> SubmitWork 0 (SealHash header100) (make 32)
               (after [CSeal header100] testerEngine) = Some false
  /\ work_hash (GetWork (after [CSeal header100; CSeal header1000] testerEngine))
     = Some (SealHash header1000).
Proof. split; [|split; [|split]]; vm_compute; reflexivity. Qed.

Lemma pushWork_running (h : Header) (s : remoteSealer) :
  exitCh s = false ->
  pushWork h s
  = mkSealer (requestExit s) false
      (<[Number h := mkWork (SealHash h) (seedHash (Number h))
                            (target (Difficulty h)) (Number h)]> (current s))
      (<[SealHash h := h]> (solvable s))
      (Some (mkWork (SealHash h) (seedHash (Number h))
                    (target (Difficulty h)) (Number h)))
      (rates s) (notify s) (results s).
Proof. intros Hx. unfold pushWork, exited. now rewrite Hx. Qed.

(** C4.  For every engine whose coordinator runs, and two headers for block 1
    of difficulty 100 and 1000 with different seal hashes: after the two are
    pushed in that order, GetWork returns the second package, which is the
    one current for block 1; a solution that verifies for the first header,
    submitted under the first seal hash before any pruning, returns true and
    is delivered to the result sink; the same submission again returns false
    and changes nothing. *)
Theorem superseded_work_is_solved_once (e : Frkhash) (s : remoteSealer)
  (h1 h2 : Header) (nonce : N) (mixDigest : Hash) :
  remote e = Some s -> exitCh s = false ->
  Number h1 = 1%Z -> Difficulty h1 = 100%Z ->
  Number h2 = 1%Z -> Difficulty h2 = 1000%Z ->
  SealHash h1 <> SealHash h2 ->
  verifies e (with_seal h1 nonce mixDigest) = true ->
  exists e2 e3,
    run [CSeal h1; CSeal h2] e = Ok e2
    /\ GetWork e2
       = Some (inr (mkWork (SealHash h2) (seedHash 1) (target 1000) 1))
    /\ current (sealer_of e2) !! 1%Z
       = Some (mkWork (SealHash h2) (seedHash 1) (target 1000) 1)
    /\ SubmitWork nonce (SealHash h1) mixDigest e2 = Some (true, e3)
    /\ results (sealer_of e3) = results s ++ [with_seal h1 nonce mixDigest]
    /\ SubmitWork nonce (SealHash h1) mixDigest e3 = Some (false, e3).
Proof.
  intros Hr Hx Hn1 Hd1 Hn2 Hd2 Hne Hver.
  assert (Hrun : run [CSeal h1; CSeal h2] e
                 = Ok (set_remote (Some (pushWork h2 (pushWork h1 s))) e)).
  { cbn. unfold Seal. rewrite Hr. cbn. reflexivity. }
  set (s2 := pushWork h2 (pushWork h1 s)) in *.
  assert (Hs2 : s2 = mkSealer (requestExit s) false
                       (<[1%Z := mkWork (SealHash h2) (seedHash 1) (target 1000) 1]>
                          (<[1%Z := mkWork (SealHash h1) (seedHash 1) (target 100) 1]>
                             (current s)))
                       (<[SealHash h2 := h2]> (<[SealHash h1 := h1]> (solvable s)))
                       (Some (mkWork (SealHash h2) (seedHash 1) (target 1000) 1))
                       (rates s) (notify s) (results s)).
  { subst s2. rewrite (pushWork_running h1 s Hx).
    rewrite pushWork_running by reflexivity. cbn.
    rewrite Hn1, Hd1, Hn2, Hd2. reflexivity. }
  set (e2 := set_remote (Some s2) e) in *.
  set (s3 := mkSealer (requestExit s2) (exitCh s2) (current s2)
               (delete (SealHash h1) (solvable s2)) (latest s2) (rates s2)
               (notify s2) (results s2 ++ [with_seal h1 nonce mixDigest])).
  exists e2, (set_remote (Some s3) e).
  split; [exact Hrun|].
  split; [unfold GetWork; subst e2; cbn; rewrite Hs2; reflexivity|].
  split; [subst e2; cbn; rewrite Hs2; cbn; apply lookup_insert_eq|].
  assert (Hlook : solvable s2 !! SealHash h1 = Some h1).
  { rewrite Hs2. cbn. rewrite lookup_insert_ne by congruence. apply lookup_insert_eq. }
  assert (Hx2 : exited s2 = false) by (rewrite Hs2; reflexivity).
  split.
  { unfold SubmitWork. subst e2. cbn. unfold submitWork.
    rewrite Hx2, Hlook.
    change (verifies (set_remote (Some s2) e)) with (verifies e).
    rewrite Hver. reflexivity. }
  split; [cbn; rewrite Hs2; reflexivity|].
  unfold SubmitWork. cbn. unfold submitWork.
  change (exited s3) with (exited s2). rewrite Hx2.
  change (solvable s3) with (delete (SealHash h1) (solvable s2)).
  rewrite lookup_delete_eq. reflexivity.
Qed.

Lemma superseded_work_is_solved_once_witness :
  remote testerEngine = Some (sealer_of testerEngine)
  /\ SealHash header100 <> SealHash header1000
  /\ verifies testerEngine (with_seal header100 solvingNonce solvingDigest) = true
  /\ exists e2 e3,
       run [CSeal header100; CSeal header1000] testerEngine = Ok e2
       /\ GetWork e2
          = Some (inr (mkWork (SealHash header1000) (seedHash 1) (target 1000) 1))
       /\ SubmitWork solvingNonce (SealHash header100) solvingDigest e2 = Some (true, e3)
       /\ SubmitWork solvingNonce (SealHash header100) solvingDigest e3 = Some (false, e3).
Proof.
  assert (Hr : remote testerEngine = Some (sealer_of testerEngine)) by reflexivity.
  assert (Hne : SealHash header100 <> SealHash header1000).
  { vm_compute. intros H. discriminate H. }
  assert (Hver : verifies testerEngine
                   (with_seal header100 solvingNonce solvingDigest) = true).
  { vm_compute. reflexivity. }
  split; [exact Hr|]. split; [exact Hne|]. split; [exact Hver|].
  destruct (superseded_work_is_solved_once testerEngine (sealer_of testerEngine)
              header100 header1000 solvingNonce solvingDigest
              Hr eq_refl eq_refl eq_refl eq_refl eq_refl Hne Hver)
    as (e2 & e3 & H1 & H2 & _ & H3 & _ & H4).
  exists e2, e3. split; [exact H1|]. split; [exact H2|]. split; [exact H3|exact H4].
Defined.

(** Once the superseded package is pruned, its solution is refused. *)
Lemma pruned_work_is_refused (e : Frkhash) (s : remoteSealer)
  (h1 h2 : Header) (nonce : N) (mixDigest : Hash) :
  remote e = Some s -> exitCh s = false ->
  Number h1 = Number h2 -> SealHash h1 <> SealHash h2 ->
  exists e2,
    run [CSeal h1; CSeal h2; CPrune] e = Ok e2
    /\ fst <$> SubmitWork nonce (SealHash h1) mixDigest e2 = Some false.
Proof.
  intros Hr Hx Hn Hne.
  exists (set_remote (Some (prune (pushWork h2 (pushWork h1 s)))) e).
  split.
  { cbn. unfold Seal, Prune. rewrite Hr. cbn. reflexivity. }
  unfold SubmitWork. cbn. unfold submitWork.
  rewrite (pushWork_running h1 s Hx).
  rewrite pushWork_running by reflexivity.
  unfold exited. cbn.
  set (P := fun kv : Hash * Header => _ = true).
  assert (Hnone : filter P (<[SealHash h2 := h2]> (<[SealHash h1 := h1]> (solvable s)))
                  !! SealHash h1 = None).
  { apply map_lookup_filter_None. right. intros h Hh.
    rewrite lookup_insert_ne in Hh by congruence.
    rewrite lookup_insert_eq in Hh. injection Hh as <-.
    subst P. cbn. unfold is_current. cbn.
    rewrite Hn, lookup_insert_eq. cbn.
    rewrite bool_decide_eq_false_2 by congruence. discriminate. }
  rewrite Hnone. reflexivity.
Qed.

(* ===================================================================== *)
(** * Further properties of the code *)
(* ===================================================================== *)

Import Host Tests Lifetime.

(** ** [frankomoto] on any input *)

(** X1.  [frankomoto] never panics, whatever the length of the hash (empty,
    short, long) and whatever the nonce: the bounds of [PutUint64] and of the
    slice expression always hold, and digest and result have 32 bytes
    each. *)
Theorem frankomoto_never_panics (hash : list byte) (nonce : N) :
  exists digest result : list byte,
    frankomoto hash nonce = Some (digest, result)
    /\ length digest = 32 /\ length result = 32.
Proof.
  eexists _, _. split; [apply frankomoto_unfold|].
  split; [apply seed_half_length|apply Keccak256_length].
Qed.

Lemma skipn_repeat_byte (n m : nat) (x : byte) :
  skipn n (repeat x m) = repeat x (m - n).
Proof.
  revert m. induction n as [|n IH]; intros m.
  - now rewrite Nat.sub_0_r.
  - destruct m as [|m]; [reflexivity|]. cbn. apply IH.
Qed.

Lemma firstn_repeat_byte (n m : nat) (x : byte) :
  firstn n (repeat x m) = repeat x (Nat.min n m).
Proof.
  revert m. induction n as [|n IH]; intros m; [reflexivity|].
  destruct m as [|m]; [reflexivity|]. cbn. now rewrite IH.
Qed.

(** The buffer after [copy(digest, hash)] for a hash of at most 32 bytes:
    the hash, then zeros. *)
Lemma copy_short (hash : list byte) :
  length hash <= 32 ->
  firstn 32 (copy (make 40) hash) = hash ++ repeat x00 (32 - length hash).
Proof.
  intros Hlen. unfold copy, make. rewrite repeat_length.
  replace (Nat.min 40 (length hash)) with (length hash) by lia.
  rewrite firstn_all, skipn_repeat_byte.
  rewrite firstn_app, firstn_all2 by lia.
  rewrite firstn_repeat_byte. f_equal. f_equal. lia.
Qed.

(** X2.  A hash shorter than 32 bytes is hashed as if it were filled up with
    zero bytes to 32: the buffer is zeroed before the copy. *)
Theorem frankomoto_pads_short_hash (hash : list byte) (nonce : N) :
  length hash <= 32 ->
  frankomoto hash nonce
  = frankomoto (hash ++ repeat x00 (32 - length hash)) nonce.
Proof.
  intros Hlen. rewrite !frankomoto_unfold. unfold seed_input.
  rewrite (copy_short hash Hlen).
  rewrite copy_short by (rewrite length_app, repeat_length; lia).
  rewrite length_app, repeat_length.
  replace (32 - (length hash + (32 - length hash))) with 0 by lia.
  cbn [repeat]. now rewrite app_nil_r.
Qed.

Lemma frankomoto_pads_short_hash_witness :
  length [x01; x02; x03] <= 32
  /\ frankomoto [x01; x02; x03] 5
     = frankomoto ([x01; x02; x03] ++ repeat x00 (32 - length [x01; x02; x03])) 5.
Proof.
  assert (H : length [x01; x02; x03] <= 32) by (cbn; lia).
  split; [exact H|].
  exact (frankomoto_pads_short_hash [x01; x02; x03] 5 H).
Defined.

Lemma to_N_byte_of_N (x : N) : Byte.to_N (byte_of_N x) = (x mod 256)%N.
Proof.
  unfold byte_of_N.
  pose proof (Byte.to_of_N_option_map (x mod 256)) as H.
  assert (Hle : (x mod 256 <=? 255)%N = true).
  { apply N.leb_le. pose proof (N.mod_upper_bound x 256). lia. }
  rewrite Hle in H.
  destruct (Byte.of_N (x mod 256)) as [b|]; cbn in H; [|discriminate].
  now injection H.
Qed.

(** Reading the bytes back, least significant first. *)
Lemma lane_of_bytes_shifts (n : N) (k s : nat) :
  lane_of_bytes (map (fun i => byte_of_N (N.shiftr n (8 * N.of_nat i))) (seq s k))
  = ((N.shiftr n (8 * N.of_nat s)) mod 256 ^ N.of_nat k)%N.
Proof.
  revert s. induction k as [|k IH]; intros s.
  - cbn. now rewrite N.mod_1_r.
  - cbn [seq map lane_of_bytes fold_right].
    change (fold_right _ 0%N ?l) with (lane_of_bytes l).
    rewrite IH, to_N_byte_of_N.
    replace (N.of_nat (S k)) with (N.succ (N.of_nat k)) by lia.
    rewrite N.pow_succ_r'.
    rewrite (N.Div0.mod_mul_r _ 256 (256 ^ N.of_nat k)).
    f_equal. f_equal. f_equal.
    replace (8 * N.of_nat (S s))%N with (8 * N.of_nat s + 8)%N by lia.
    rewrite <- N.shiftr_shiftr. now rewrite (N.shiftr_div_pow2 _ 8).
Qed.

(** What [binary.LittleEndian.Uint64] would read back from the eight bytes
    [PutUint64] wrote. *)
Lemma littleEndian64_read (n : N) :
  lane_of_bytes (littleEndian64 n) = (n mod 2 ^ 64)%N.
Proof.
  unfold littleEndian64. rewrite (lane_of_bytes_shifts n 8 0).
  rewrite N.shiftr_0_r. reflexivity.
Qed.

(** X3.  The 40 bytes [frankomoto] hashes are the first 32 bytes of the hash
    followed by the nonce, and they give both back: two calls on hashes of at
    least 32 bytes and 64-bit nonces hash the same buffer only if they have
    the same first 32 bytes and the same nonce. *)
Theorem frankomoto_buffer_is_injective (hash hash' : list byte) (nonce nonce' : N) :
  32 <= length hash -> 32 <= length hash' ->
  (nonce < 2 ^ 64)%N -> (nonce' < 2 ^ 64)%N ->
  frankomoto hash nonce
    = Some (skipn 32 (Keccak512 (seed_input hash nonce)),
            Keccak256 (Keccak512 (seed_input hash nonce)))
  /\ length (seed_input hash nonce) = 40
  /\ lane_of_bytes (skipn 32 (seed_input hash nonce)) = nonce
  /\ (seed_input hash nonce = seed_input hash' nonce' ->
      firstn 32 hash = firstn 32 hash' /\ nonce = nonce').
Proof.
  intros Hlen Hlen' Hn Hn'.
  split; [apply frankomoto_unfold|].
  rewrite !seed_input_long by assumption.
  assert (H32 : forall h : list byte, 32 <= length h -> length (firstn 32 h) = 32).
  { intros h Hh. rewrite length_firstn. lia. }
  split; [rewrite length_app, H32, littleEndian64_length by assumption; reflexivity|].
  split.
  - rewrite skipn_app, H32 by assumption.
    rewrite (skipn_all2 (firstn 32 hash)) by (rewrite H32 by assumption; lia).
    change (32 - 32) with 0. rewrite skipn_O, app_nil_l.
    rewrite littleEndian64_read. now apply N.mod_small.
  - intros Heq. apply app_inj_1 in Heq as [Hh Hle];
      [|rewrite !H32 by assumption; reflexivity].
    split; [exact Hh|].
    apply (f_equal lane_of_bytes) in Hle. rewrite !littleEndian64_read in Hle.
    now rewrite !N.mod_small in Hle by assumption.
Qed.

Lemma frankomoto_buffer_is_injective_witness :
  32 <= length testHash /\ (7 < 2 ^ 64)%N
  /\ length (seed_input testHash 7) = 40
  /\ lane_of_bytes (skipn 32 (seed_input testHash 7)) = 7%N.
Proof.
  assert (H : 32 <= length testHash) by (vm_compute; lia).
  assert (H7 : (7 < 2 ^ 64)%N) by (vm_compute; reflexivity).
  split; [exact H|]. split; [exact H7|].
  destruct (frankomoto_buffer_is_injective testHash testHash 7 7 H H H7 H7)
    as (_ & H1 & H2 & _).
  split; [exact H1|exact H2].
Defined.

(** ** The byte-order probe *)

(** X4.  [isLittleEndian] answers true exactly on a host that keeps the least
    significant byte of a word at the lowest address: the four bytes of the
    probe word differ, so no other byte reads 0x04. *)
Theorem isLittleEndian_iff (lowest : nat) :
  isLittleEndian lowest = true <-> lowest = 0.
Proof.
  unfold isLittleEndian, byte_at. split.
  - intros H. apply bool_decide_eq_true in H.
    destruct lowest as [|[|[|[|k]]]]; [reflexivity|vm_compute in H; discriminate H..|].
    exfalso.
    assert (Hz : N.shiftr 16909060 (8 * N.of_nat (S (S (S (S k))))) = 0%N).
    { apply N.shiftr_eq_0. change (N.log2 16909060) with 24%N. lia. }
    rewrite Hz in H. vm_compute in H. discriminate H.
  - intros ->. reflexivity.
Qed.

(** ** The block numbers of verifyFrkhashTest *)

(** X13.  In round [epoch] verifyFrkhashTest builds its header for a block
    that is never negative and that lies at most two epochs before and one
    epoch after [epoch], whatever the random source returns within its
    range. *)
Theorem test_block_near_epoch (epoch x : Z) :
  (0 <= epoch < 2 ^ 48)%Z -> (0 <= x < wiggle)%Z ->
  (0 <= test_block epoch x)%Z
  /\ (epoch - 2 <= test_block epoch x / Z.of_N epochLength <= epoch + 1)%Z
  /\ (test_block epoch x = Z.max 0 (epoch * 30000 - 60000 + x))%Z.
Proof.
  intros He Hx. unfold wiggle in Hx. change (Z.of_N epochLength) with 30000%Z in *.
  assert (Hwrap : forall z, (- 2 ^ 63 <= z < 2 ^ 63)%Z -> int64 z = z).
  { intros z Hz. unfold int64.
    rewrite Z.mod_small by lia. lia. }
  assert (Hb : test_block epoch x = Z.max 0 (epoch * 30000 - 60000 + x)).
  { unfold test_block, wiggle. change (Z.of_N epochLength) with 30000%Z.
    change (4 * 30000 / 2)%Z with 60000%Z.
    rewrite (Hwrap epoch) by lia.
    rewrite (Hwrap (epoch * 30000)%Z) by lia.
    rewrite (Hwrap (epoch * 30000 - 60000)%Z) by lia.
    rewrite (Hwrap (epoch * 30000 - 60000 + x)%Z) by lia.
    destruct (Z.ltb_spec (epoch * 30000 - 60000 + x) 0); lia. }
  rewrite Hb. split; [lia|]. split; [|reflexivity].
  split.
  - apply Z.div_le_lower_bound; lia.
  - apply Z.lt_succ_r. apply Z.div_lt_upper_bound; lia.
Qed.

Lemma test_block_near_epoch_witness :
  (0 <= 0 < 2 ^ 48)%Z /\ (0 <= 100 < wiggle)%Z /\ test_block 0 100 = 0%Z.
Proof.
  assert (H1 : (0 <= 0 < 2 ^ 48)%Z) by lia.
  assert (H2 : (0 <= 100 < wiggle)%Z) by (vm_compute; split; [discriminate|reflexivity]).
  split; [exact H1|]. split; [exact H2|].
  rewrite (proj2 (proj2 (test_block_near_epoch 0 100 H1 H2))). reflexivity.
Defined.

(** ** What stays of an engine over its life *)

Section LifetimeFacts.

Lemma keeps_refl (e : Frkhash) : keeps e e.
Proof. unfold keeps. tauto. Qed.

Lemma keeps_trans (e1 e2 e3 : Frkhash) : keeps e1 e2 -> keeps e2 e3 -> keeps e1 e3.
Proof.
  unfold keeps. intros (A1 & A2 & A3 & A4 & A5 & A6 & A7 & A8)
                       (B1 & B2 & B3 & B4 & B5 & B6 & B7 & B8).
  split; [congruence|]. split; [congruence|]. split; [congruence|].
  split; [congruence|]. tauto.
Qed.

Lemma keeps_built (e e' : Frkhash) : keeps e e' -> built e -> built e'.
Proof. unfold keeps, built. tauto. Qed.

(** A call on an engine keeps it. *)
Lemma step_keeps (c : Call) (e e' : Frkhash) : step c e = Ok e' -> keeps e e'.
Proof.
  intros H.
  pose proof (step_frame c e e' H) as (Hc & _ & Hu & Hh & Hs & _ & Hf & Hd).
  unfold keeps. rewrite Hc, Hu, Hh, Hs, Hf, Hd.
  do 4 (split; [reflexivity|]).
  assert (Hrc : (remote e' = None <-> remote e = None)
                /\ (closeOnce e = true -> closeOnce e' = true)).
  { destruct c; step_cases H; cbn in *; split; first [ tauto | congruence | split; congruence ]. }
  tauto.
Qed.

(** The write of [SetThreads] keeps the engine. *)
Lemma set_threads_keeps (n : Z) (e : Frkhash) :
  keeps e (set_update (try_send (update e)) (set_threads n e)).
Proof.
  unfold keeps. cbn. do 6 (split; [tauto|]). split; [|tauto].
  unfold try_send. destruct (update e) as [ch|]; [|tauto].
  destruct (receiver ch); split; congruence.
Qed.

Lemma listen_keeps (e e' : Frkhash) : listen e = Ok e' -> keeps e e'.
Proof.
  unfold listen. destruct (update e) as [ch|] eqn:Hu; [|discriminate].
  intros [= <-]. unfold keeps. cbn. rewrite Hu. do 6 (split; [tauto|]).
  split; [split; congruence|tauto].
Qed.

Lemma mark_keeps (x : float) (e e' : Frkhash) : mark x e = Ok e' -> keeps e e'.
Proof.
  unfold mark. destruct (hashrate e) as [m|] eqn:Hm; [|discriminate].
  intros [= <-]. unfold keeps. cbn. rewrite Hm. do 5 (split; [tauto|]).
  split; [split; congruence|tauto].
Qed.

(** What one action of the process does to an engine that exists: the engine
    stays at its address and is kept. *)
Lemma act_keeps (a : Action) (w w' : World) (l : loc) (e : Frkhash) :
  invariant w -> act a w = Ok w' -> heap w !! l = Some e ->
  exists e', heap w' !! l = Some e' /\ keeps e e'.
Proof.
  intros Hinv H Hl.
  assert (Hkeep : forall e0, w' = snd (alloc e0 w) ->
            exists e', heap w' !! l = Some e' /\ keeps e e').
  { intros e0 ->. exists e. split; [now apply alloc_other|apply keeps_refl]. }
  assert (Hstore : forall l0 e0 e0', w' = store l0 e0' w -> heap w !! l0 = Some e0 ->
            keeps e0 e0' -> exists e', heap w' !! l = Some e' /\ keeps e e').
  { intros l0 e0 e0' -> Hl0 Hk.
    change (heap (store l0 e0' w)) with (<[l0 := e0']> (heap w)).
    destruct (decide (l0 = l)) as [Heq|Hne].
    - exists e0'. rewrite Heq, lookup_insert_eq. split; [reflexivity|].
      rewrite Heq in Hl0. now simplify_eq.
    - exists e. rewrite lookup_insert_ne by assumption.
      split; [exact Hl|apply keeps_refl]. }
  destruct a; cbn [act] in H.
  - injection H as <-. eapply Hkeep. reflexivity.
  - injection H as <-. eapply Hkeep. reflexivity.
  - injection H as <-. eapply Hkeep. reflexivity.
  - injection H as <-. eapply Hkeep. reflexivity.
  - injection H as <-. eapply Hkeep. reflexivity.
  - injection H as <-. eapply Hkeep. reflexivity.
  - injection H as <-. eapply Hkeep. reflexivity.
  - destruct (heap w !! l0) as [e0|] eqn:Hl0.
    + destruct (SetThreads_target w l0 e0 n Hinv Hl0)
        as (t & et & Ht & _ & _ & _ & Hres).
      rewrite Hres in H. injection H as <-.
      eapply (Hstore t et); [reflexivity|exact Ht|apply set_threads_keeps].
    + unfold SetThreads in H. cbn [SetThreads_rec] in H.
      rewrite Hl0 in H. discriminate.
  - destruct (Threads l0 w); cbn in H; simplify_eq.
    exists e. split; [exact Hl|apply keeps_refl].
  - unfold on_engine in H. destruct (heap w !! l0) as [e0|] eqn:Hl0; [|discriminate].
    destruct (step c e0) as [e0'| |] eqn:Hstep; cbn in H; [|discriminate..].
    injection H as <-.
    eapply (Hstore l0 e0); [reflexivity|exact Hl0|now apply (step_keeps c)].
  - unfold on_engine in H. destruct (heap w !! l0) as [e0|] eqn:Hl0; [|discriminate].
    destruct (listen e0) as [e0'| |] eqn:Hstep; cbn in H; [|discriminate..].
    injection H as <-.
    eapply (Hstore l0 e0); [reflexivity|exact Hl0|now apply listen_keeps].
  - unfold on_engine in H. destruct (heap w !! l0) as [e0|] eqn:Hl0; [|discriminate].
    destruct (mark x e0) as [e0'| |] eqn:Hstep; cbn in H; [|discriminate..].
    injection H as <-.
    eapply (Hstore l0 e0); [reflexivity|exact Hl0|now apply (mark_keeps x)].
Qed.

Lemma perform_invariant (acts : list Action) (w w' : World) :
  invariant w -> perform acts w = Ok w' -> invariant w'.
Proof.
  revert w. induction acts as [|a acts IH]; intros w Hinv H.
  - cbn in H. now injection H as <-.
  - cbn [perform] in H. destruct (act a w) as [w1| |] eqn:Ha; cbn in H; [|discriminate..].
    apply (IH w1); [now apply (act_invariant a w)|exact H].
Qed.

Lemma perform_reachable (acts : list Action) (w w' : World) :
  reachable w -> perform acts w = Ok w' -> reachable w'.
Proof.
  revert w. induction acts as [|a acts IH]; intros w Hr H.
  - cbn in H. now injection H as <-.
  - cbn [perform] in H. destruct (act a w) as [w1| |] eqn:Ha; cbn in H; [|discriminate..].
    apply (IH w1); [exact (reach_act a w w1 Hr Ha)|exact H].
Qed.

Lemma perform_keeps (acts : list Action) (w w' : World) (l : loc) (e : Frkhash) :
  invariant w -> perform acts w = Ok w' -> heap w !! l = Some e ->
  exists e', heap w' !! l = Some e' /\ keeps e e'.
Proof.
  revert w e. induction acts as [|a acts IH]; intros w e Hinv H Hl.
  - cbn in H. injection H as <-. exists e. split; [exact Hl|apply keeps_refl].
  - cbn [perform] in H. destruct (act a w) as [w1| |] eqn:Ha; cbn in H; [|discriminate..].
    destruct (act_keeps a w w1 l e Hinv Ha Hl) as (e1 & Hl1 & Hk1).
    destruct (IH w1 e1 (act_invariant a w w1 Hinv Ha) H Hl1) as (e2 & Hl2 & Hk2).
    exists e2. split; [exact Hl2|now apply (keeps_trans e e1)].
Qed.

(** Every engine of the store has [P], after an allocation and after a
    write. *)
Lemma alloc_all (P : Frkhash -> Prop) (e : Frkhash) (w : World) :
  (forall l e0, heap w !! l = Some e0 -> P e0) -> P e ->
  forall l e0, heap (snd (alloc e w)) !! l = Some e0 -> P e0.
Proof.
  intros Hall He l e0 Hl.
  change (heap (snd (alloc e w))) with (<[fst (alloc e w) := e]> (heap w)) in Hl.
  apply lookup_insert_Some in Hl as [[_ <-]|[_ Hl]]; [exact He|now apply (Hall l)].
Qed.

Lemma store_all (P : Frkhash -> Prop) (t : loc) (e : Frkhash) (w : World) :
  (forall l e0, heap w !! l = Some e0 -> P e0) -> P e ->
  forall l e0, heap (store t e w) !! l = Some e0 -> P e0.
Proof.
  intros Hall He l e0 Hl.
  change (heap (store t e w)) with (<[t := e]> (heap w)) in Hl.
  apply lookup_insert_Some in Hl as [[_ <-]|[_ Hl]]; [exact He|now apply (Hall l)].
Qed.

Lemma New_built (cfg : Config) (ep : list string) (nv : bool) (w : World) :
  (forall l e0, heap w !! l = Some e0 -> built e0) ->
  forall l e0, heap (snd (New cfg ep nv w)) !! l = Some e0 -> built e0.
Proof.
  intros Hall. unfold New. apply alloc_all; [exact Hall|].
  destruct (bool_decide (PowMode cfg = ModeShared)); cbn;
    split; split; discriminate.
Qed.

Lemma act_built (a : Action) (w w' : World) :
  invariant w -> (forall l e, heap w !! l = Some e -> built e) ->
  act a w = Ok w' -> forall l e, heap w' !! l = Some e -> built e.
Proof.
  intros Hinv Hall H.
  assert (Hnil : forall cfg sh f d,
            built (mkFrkhash cfg 0 None None None sh f d false false)).
  { intros. split; split; reflexivity. }
  destruct a; cbn [act] in H.
  - injection H as <-. exact (New_built cfg endpoints noverify w Hall).
  - injection H as <-.
    exact (New_built {| PowMode := ModeTest; NotifyFull := false |}
                     endpoints noverify w Hall).
  - injection H as <-. apply alloc_all; [exact Hall|apply Hnil].
  - injection H as <-. apply alloc_all; [exact Hall|apply Hnil].
  - injection H as <-. apply alloc_all; [exact Hall|apply Hnil].
  - injection H as <-. apply alloc_all; [exact Hall|apply Hnil].
  - injection H as <-. apply alloc_all; [exact Hall|apply Hnil].
  - destruct (heap w !! l) as [e0|] eqn:Hl0.
    + destruct (SetThreads_target w l e0 n Hinv Hl0)
        as (t & et & Ht & _ & _ & _ & Hres).
      rewrite Hres in H. injection H as <-.
      apply store_all; [exact Hall|].
      apply (keeps_built et); [apply set_threads_keeps|now apply (Hall t)].
    + unfold SetThreads in H. cbn [SetThreads_rec] in H.
      rewrite Hl0 in H. discriminate.
  - destruct (Threads l w); cbn in H; simplify_eq. exact Hall.
  - unfold on_engine in H. destruct (heap w !! l) as [e0|] eqn:Hl0; [|discriminate].
    destruct (step c e0) as [e0'| |] eqn:Hstep; cbn in H; [|discriminate..].
    injection H as <-. apply store_all; [exact Hall|].
    apply (keeps_built e0); [now apply (step_keeps c)|now apply (Hall l)].
  - unfold on_engine in H. destruct (heap w !! l) as [e0|] eqn:Hl0; [|discriminate].
    destruct (listen e0) as [e0'| |] eqn:Hstep; cbn in H; [|discriminate..].
    injection H as <-. apply store_all; [exact Hall|].
    apply (keeps_built e0); [now apply listen_keeps|now apply (Hall l)].
  - unfold on_engine in H. destruct (heap w !! l) as [e0|] eqn:Hl0; [|discriminate].
    destruct (mark x e0) as [e0'| |] eqn:Hstep; cbn in H; [|discriminate..].
    injection H as <-. apply store_all; [exact Hall|].
    apply (keeps_built e0); [now apply (mark_keeps x)|now apply (Hall l)].
Qed.

Lemma reachable_built (w : World) :
  reachable w -> forall l e, heap w !! l = Some e -> built e.
Proof.
  induction 1 as [|a w w' Hr IH Hact].
  - unfold init. cbn [heap].
    apply (New_built _ [] false (mkWorld ∅ None)).
    intros l e Hl. cbn in Hl. rewrite lookup_empty in Hl. discriminate.
  - exact (act_built a w w' (reachable_invariant w Hr) IH Hact).
Qed.

End LifetimeFacts.

(** ** [Hashrate] over the life of an engine *)

(** X5.  In every world a process can reach, at any time: Hashrate() returns
    on exactly the engines that have a sealer, and panics on all the others,
    whose meter is nil as well; it never hangs. *)
Theorem Hashrate_needs_the_sealer (w : World) (l : loc) (e : Frkhash) (now : Z) :
  reachable w -> heap w !! l = Some e ->
  (is_Some (remote e) <-> exists r, Hashrate now e = Ok r)
  /\ (remote e = None <-> Hashrate now e = Panic)
  /\ Hashrate now e <> Blocked.
Proof.
  intros Hreach Hl.
  destruct (reachable_built w Hreach l e Hl) as [Hm _].
  unfold Hashrate, localRate.
  destruct (remote e) as [s|] eqn:Hr.
  - destruct (hashrate e) as [m|] eqn:Hh; [|exfalso; destruct Hm as [_ Hm]; now discriminate Hm].
    destruct (bool_decide _ && bool_decide _); [|destruct (exitCh s)]; cbn;
      (split; [split; intros _; eexists; reflexivity|]);
      (split; [split; discriminate|discriminate]).
  - assert (Hh : hashrate e = None) by now apply Hm.
    rewrite Hh. destruct (_ && _); cbn.
    + split; [split; [intros [? ?]; discriminate|intros [? ?]; discriminate]|].
      split; [split; reflexivity|discriminate].
    + split; [split; [intros [? ?]; discriminate|intros [? ?]; discriminate]|].
      split; [split; reflexivity|discriminate].
Qed.

Lemma Hashrate_needs_the_sealer_witness :
  reachable sharedWorld
  /\ heap sharedWorld !! sharedLoc = Some (engine_at sharedLoc sharedWorld)
  /\ Hashrate 0 (engine_at sharedLoc sharedWorld) = Panic.
Proof.
  assert (Hl : heap sharedWorld !! sharedLoc = Some (engine_at sharedLoc sharedWorld))
    by (vm_compute; reflexivity).
  split; [exact reachable_sharedWorld|]. split; [exact Hl|].
  apply (Hashrate_needs_the_sealer sharedWorld sharedLoc _ 0 reachable_sharedWorld Hl).
  reflexivity.
Defined.

Lemma total_rate_none (now : Z) (ep : list string) (nv : bool) :
  fst (aggregateHashrate now (startRemoteSealer ep nv)) = 0%N.
Proof.
  unfold aggregateHashrate, startRemoteSealer. cbn [fst rates].
  rewrite map_filter_empty. unfold total_rate. apply map_fold_empty.
Qed.

(** X6.  Hashrate() on an engine right after its construction, in any state
    of the process: 0 on an engine made by [New] or [NewTester], in every
    mode; a nil dereference on an engine made by [NewFaker],
    [NewFakeFailer], [NewFakeDelayer], [NewFullFaker] or [NewShared], none of
    which sets the meter. *)
Theorem Hashrate_of_a_new_engine (w : World) (now : Z) :
  let first (r : loc * World) : option (outcome float) :=
    (fun e => fst <$> Hashrate now e) <$> heap (snd r) !! fst r in
  (forall cfg ep nv, first (New cfg ep nv w) = Some (Ok 0%float))
  /\ (forall ep nv, first (NewTester ep nv w) = Some (Ok 0%float))
  /\ first (NewFaker w) = Some Panic
  /\ (forall fail, first (NewFakeFailer fail w) = Some Panic)
  /\ (forall delay, first (NewFakeDelayer delay w) = Some Panic)
  /\ first (NewFullFaker w) = Some Panic
  /\ first (NewShared w) = Some Panic.
Proof.
  intros first.
  assert (HNew : forall cfg ep nv, first (New cfg ep nv w) = Some (Ok 0%float)).
  { intros cfg ep nv. unfold first, New. rewrite alloc_lookup.
    cbn [fmap option_fmap option_map]. f_equal.
    unfold Hashrate, localRate.
    assert (Hz : (0 + float_of_uint64 0)%float = 0%float) by (vm_compute; reflexivity).
    destruct cfg as [[] nf]; cbn; rewrite ?total_rate_none, ?Hz; reflexivity. }
  split; [exact HNew|].
  split; [intros ep nv; apply HNew|].
  unfold first, NewFaker, NewFakeFailer, NewFakeDelayer, NewFullFaker, NewShared.
  repeat split; intros; rewrite alloc_lookup; reflexivity.
Qed.

(** ** The life of an engine *)

(** X7.  In every world a process can reach, whatever the process does next
    (constructors, SetThreads, Threads, Close, Hashrate, calls of the
    coordinator): an engine stays at its address with the configuration, the
    shared engine and the fake settings it was made with, it has a sealer, a
    meter and an update channel if and only if it had them, and once closed
    it stays closed: a later Close() returns nil and does nothing. *)
Theorem engine_is_kept (w w' : World) (l : loc) (e : Frkhash) (acts : list Action) :
  reachable w -> heap w !! l = Some e -> perform acts w = Ok w' ->
  exists e',
    heap w' !! l = Some e' /\ keeps e e'
    /\ (closeOnce e = true -> Close e' = Ok (None, [], e')).
Proof.
  intros Hreach Hl Hp.
  destruct (perform_keeps acts w w' l e (reachable_invariant w Hreach) Hp Hl)
    as (e' & Hl' & Hk).
  exists e'. split; [exact Hl'|]. split; [exact Hk|].
  intros Hc. apply Close_done. now apply Hk.
Qed.

Lemma engine_is_kept_witness :
  reachable testerWorld /\ heap testerWorld !! tester = Some testerEngine
  /\ exists w' e',
       perform [ACall tester CClose; ASetThreads tester 4; ANewFaker] testerWorld = Ok w'
       /\ heap w' !! tester = Some e' /\ keeps testerEngine e'.
Proof.
  assert (Hp : exists w',
            perform [ACall tester CClose; ASetThreads tester 4; ANewFaker] testerWorld
            = Ok w').
  { eexists. vm_compute. reflexivity. }
  destruct Hp as [w' Hp].
  split; [exact reachable_tester|]. split; [exact reachable_tester_engine|].
  destruct (engine_is_kept testerWorld w' tester testerEngine _
              reachable_tester reachable_tester_engine Hp) as (e' & Hl' & Hk & _).
  exists w', e'. split; [exact Hp|]. split; [exact Hl'|exact Hk].
Defined.

(** X8.  In every world a process can reach, for every engine with a meter,
    in every mode and whether it was closed before or not: Close() returns
    nil, and a Hashrate() after it returns the local meter rate alone,
    without asking the sealer and without changing the engine. *)
Theorem Hashrate_after_Close (w : World) (l : loc) (e : Frkhash) (m : Meter)
  (now : Z) :
  reachable w -> heap w !! l = Some e -> hashrate e = Some m ->
  exists evs e1,
    Close e = Ok (None, evs, e1) /\ Hashrate now e1 = Ok (Rate1 m, e1).
Proof.
  intros Hreach Hl Hm.
  destruct (proj2 (reachable_invariant w Hreach) l e Hl) as (_ & _ & Hch).
  destruct (reachable_built w Hreach l e Hl) as [Hb _].
  destruct (remote e) as [s|] eqn:Hr;
    [|exfalso; destruct Hb as [Hb _]; rewrite Hb in Hm by reflexivity; discriminate].
  destruct (Hch s eq_refl) as [Hq Hx].
  destruct (closeOnce e) eqn:Hc.
  - exists [], e. split; [now apply Close_done|].
    unfold Hashrate, localRate. rewrite Hm, Hr, Hx.
    destruct (_ && _); reflexivity.
  - eexists _, _. split; [exact (Close_first_remote e s Hc Hr Hq)|].
    unfold Hashrate, localRate. cbn. rewrite Hm.
    destruct (_ && _); reflexivity.
Qed.

Lemma Hashrate_after_Close_witness :
  reachable testerWorld /\ heap testerWorld !! tester = Some testerEngine
  /\ hashrate testerEngine = Some NewMeterForced
  /\ exists evs e1,
       Close testerEngine = Ok (None, evs, e1)
       /\ Hashrate 5 e1 = Ok (Rate1 NewMeterForced, e1).
Proof.
  assert (Hm : hashrate testerEngine = Some NewMeterForced) by reflexivity.
  split; [exact reachable_tester|]. split; [exact reachable_tester_engine|].
  split; [exact Hm|].
  exact (Hashrate_after_Close testerWorld tester testerEngine NewMeterForced 5
           reachable_tester reachable_tester_engine Hm).
Defined.

(** ** [SetThreads], call after call *)

Lemma try_send_twice (c : option chan) : try_send (try_send c) = try_send c.
Proof.
  destruct c as [[[] d]|]; reflexivity.
Qed.

Lemma set_threads_twice (n m : Z) (e : Frkhash) :
  set_update
    (try_send (update (set_update (try_send (update e)) (set_threads n e))))
    (set_threads m (set_update (try_send (update e)) (set_threads n e)))
  = set_update (try_send (update e)) (set_threads m e).
Proof. cbn. now rewrite try_send_twice. Qed.

(** X9.  In every world a process can reach, for every engine: two calls of
    SetThreads in a row both return and leave the process in the state the
    second call alone would have left it in.  On the engine that is written
    (the caller, or its shared engine) the count of the second call is the
    one that stays, and a Seal parked on its update channel is handed the
    notification by the first call and by that call only: one delivery, not
    two; with nobody receiving, or on a nil channel, nothing is delivered. *)
Theorem SetThreads_last_call_wins (w : World) (l : loc) (e : Frkhash) (n m : Z) :
  reachable w -> heap w !! l = Some e ->
  exists (w1 w2 : World) (t : loc) (et et1 et2 : Frkhash),
    SetThreads l n w = Ok w1 /\ SetThreads l m w1 = Ok w2
    /\ SetThreads l m w = Ok w2
    /\ t = default l (shared e)
    /\ heap w !! t = Some et /\ heap w1 !! t = Some et1 /\ heap w2 !! t = Some et2
    /\ threads et1 = n /\ threads et2 = m
    /\ match update et with
       | Some ch =>
           if receiver ch
           then update et1
                = Some {| receiver := false; delivered := S (delivered ch) |}
                /\ update et2 = update et1
           else update et1 = Some ch /\ update et2 = Some ch
       | None => update et1 = None /\ update et2 = None
       end.
Proof.
  intros Hreach Hl. pose proof (reachable_invariant w Hreach) as Hinv.
  destruct (proj2 Hinv l e Hl) as (Hlock & _ & _).
  destruct (SetThreads_target w l e n Hinv Hl)
    as (t & et & Ht & Hnone & Hlk & Hcase & Hres).
  set (et1 := set_update (try_send (update et)) (set_threads n et)) in *.
  set (et2 := set_update (try_send (update et)) (set_threads m et)).
  assert (Ht1 : heap (store t et1 w) !! t = Some et1) by apply lookup_insert_eq.
  assert (Hstore : store t (set_update (try_send (update et1)) (set_threads m et1))
                     (store t et1 w)
                   = store t et2 w).
  { unfold store. cbn [heap sharedFrkhash]. rewrite insert_insert_eq.
    subst et1 et2. now rewrite set_threads_twice. }
  assert (Hchan : match update et with
                  | Some ch =>
                      if receiver ch
                      then update et1
                           = Some {| receiver := false; delivered := S (delivered ch) |}
                           /\ update et2 = update et1
                      else update et1 = Some ch /\ update et2 = Some ch
                  | None => update et1 = None /\ update et2 = None
                  end).
  { subst et1 et2. cbn [update set_update]. unfold try_send.
    destruct (update et) as [ch|]; [|now split].
    destruct (receiver ch); now split. }
  assert (Htarget : t = default l (shared e)).
  { destruct Hcase as [[Hown ->]|[Hsh _]]; [now rewrite Hown|now rewrite Hsh]. }
  assert (Hruns : SetThreads l m (store t et1 w) = Ok (store t et2 w)
                  /\ SetThreads l m w = Ok (store t et2 w)).
  { destruct Hcase as [[Hown ->]|[Hsh Hne]].
    - assert (et = e) by congruence. subst et.
      rewrite (SetThreads_own (store l et1 w) l et1 m Ht1 Hlk Hnone).
      rewrite (SetThreads_own w l e m Hl Hlk Hnone).
      split; [now rewrite Hstore|reflexivity].
    - assert (Hl1 : heap (store t et1 w) !! l = Some e).
      { cbn. now rewrite lookup_insert_ne. }
      rewrite (SetThreads_shared (store t et1 w) l t e et1 m Hl1 Hlock Hsh Ht1 Hlk Hnone).
      rewrite (SetThreads_shared w l t e et m Hl Hlock Hsh Ht Hlk Hnone).
      split; [now rewrite Hstore|reflexivity]. }
  exists (store t et1 w), (store t et2 w), t, et, et1, et2.
  split; [exact Hres|]. split; [exact (proj1 Hruns)|]. split; [exact (proj2 Hruns)|].
  split; [exact Htarget|]. split; [exact Ht|]. split; [exact Ht1|].
  split; [apply lookup_insert_eq|]. split; [reflexivity|]. split; [reflexivity|].
  exact Hchan.
Qed.

Lemma SetThreads_last_call_wins_witness :
  reachable listeningWorld
  /\ heap listeningWorld !! tester
     = Some (set_update (Some {| receiver := true; delivered := 0 |}) testerEngine)
  /\ exists (w1 w2 : World) (et1 et2 : Frkhash),
       SetThreads tester 4 listeningWorld = Ok w1
       /\ SetThreads tester (-1) w1 = Ok w2
       /\ heap w1 !! tester = Some et1 /\ heap w2 !! tester = Some et2
       /\ threads et2 = (-1)%Z
       /\ update et1 = Some {| receiver := false; delivered := 1 |}
       /\ update et2 = Some {| receiver := false; delivered := 1 |}.
Proof.
  assert (Hreach : reachable listeningWorld).
  { apply (reach_act (AListen tester) testerWorld _ reachable_tester).
    vm_compute. reflexivity. }
  assert (Hl : heap listeningWorld !! tester
               = Some (set_update (Some {| receiver := true; delivered := 0 |})
                                  testerEngine))
    by apply lookup_insert_eq.
  split; [exact Hreach|]. split; [exact Hl|].
  destruct (SetThreads_last_call_wins listeningWorld tester _ 4 (-1) Hreach Hl)
    as (w1 & w2 & t & et & et1 & et2 & H1 & H2 & _ & Ht & Het & Het1 & Het2
        & _ & Hm & Hch).
  assert (Htt : t = tester) by (rewrite Ht; reflexivity).
  rewrite Htt in Het, Het1, Het2.
  assert (Hsame : et = set_update (Some {| receiver := true; delivered := 0 |})
                                  testerEngine) by congruence.
  rewrite Hsame in Hch. cbn [update set_update receiver delivered] in Hch.
  destruct Hch as [Hu1 Hu2].
  exists w1, w2, et1, et2.
  split; [exact H1|]. split; [exact H2|]. split; [exact Het1|].
  split; [exact Het2|]. split; [exact Hm|]. split; [exact Hu1|].
  rewrite Hu2. exact Hu1.
Defined.

(** ** Concurrent callers of [Close] all return *)

Section CloseTerminates.

Import Concurrent.

Lemma weight_insert (p p' : pc) (l : list pc) (i : nat) :
  l !! i = Some p ->
  sum_list (weight <$> <[i := p']> l) + weight p
  = sum_list (weight <$> l) + weight p'.
Proof.
  revert i. induction l as [|x l IH]; intros i Hi; [discriminate|].
  destruct i as [|i]; cbn in Hi.
  - injection Hi as ->. change (<[0 := p']> (p :: l)) with (p' :: l).
    rewrite !fmap_cons. cbn [sum_list_with]; change (id ?a + ?b) with (a + b). lia.
  - change (<[S i := p']> (x :: l)) with (x :: <[i := p']> l).
    rewrite !fmap_cons. cbn [sum_list_with]; change (id ?a + ?b) with (a + b).
    specialize (IH i Hi). lia.
Qed.

Lemma weight_repeat (k : nat) : sum_list (weight <$> repeat AtDo k) = 3 * k.
Proof.
  induction k as [|k IH]; [reflexivity|].
  cbn [repeat]. rewrite fmap_cons. cbn [sum_list_with]; change (id ?a + ?b) with (a + b).
  rewrite IH. cbn [weight]. lia.
Qed.

(** Every step, of a caller or of the sealer, uses up some of the measure. *)
Lemma step_measure (c c' : conf) : step c c' -> measure c' < measure c.
Proof.
  intros Hstep. unfold measure.
  destruct Hstep as [i c Hpc Hc|i c Hpc Hc Hb|i c Hpc Hr|i c s Hpc Hr Hq
                    |i c s Hpc Hr Hx|c s Hr Hq Hx]; cbn [eng busy pcs closes].
  - pose proof (weight_insert _ Returned _ _ Hpc) as Hw. cbn [weight] in Hw. lia.
  - pose proof (weight_insert _ InBody _ _ Hpc) as Hw. cbn [weight] in Hw. lia.
  - pose proof (weight_insert _ Returned _ _ Hpc) as Hw. cbn [weight] in Hw.
    unfold pending. cbn [remote set_closeOnce]. lia.
  - pose proof (weight_insert _ Waiting _ _ Hpc) as Hw. cbn [weight] in Hw.
    unfold pending. cbn [remote set_remote]. rewrite Hr.
    cbn [exitCh closeRequestExit]. lia.
  - pose proof (weight_insert _ Returned _ _ Hpc) as Hw. cbn [weight] in Hw.
    unfold pending. cbn [remote set_closeOnce]. lia.
  - unfold pending. cbn [remote set_remote]. rewrite Hr, Hx.
    unfold loop_exit. rewrite Hq. cbn [exitCh]. lia.
Qed.

Lemma nsteps_measure (n : nat) (c c' : conf) :
  nsteps step n c c' -> n + measure c' <= measure c.
Proof.
  induction 1 as [|n c c1 c2 Hs _ IH]; [lia|].
  pose proof (step_measure c c1 Hs). lia.
Qed.

Lemma start_measure (e : Frkhash) (k : nat) : measure (start e k) <= 3 * k + 1.
Proof.
  unfold measure, start. cbn [pcs eng]. rewrite weight_repeat.
  unfold pending. destruct (remote e) as [s|]; [destruct (exitCh s)|]; lia.
Qed.

Lemma step_length (c c' : conf) : step c c' -> length (pcs c') = length (pcs c).
Proof.
  intros Hstep. destruct Hstep; cbn [pcs]; rewrite ?length_insert; reflexivity.
Qed.

Lemma steps_length (c c' : conf) : rtc step c c' -> length (pcs c') = length (pcs c).
Proof.
  induction 1 as [|c c1 c2 Hs _ IH]; [reflexivity|].
  rewrite IH. now apply step_length.
Qed.

(** From any configuration in one of the stages the parties can go on until
    every caller is back. *)
Lemma run_to_end (before : bool) (m : nat) (c : conf) :
  stage before c -> measure c <= m ->
  exists c', rtc step c c' /\ forall i p, pcs c' !! i = Some p -> p = Returned.
Proof.
  revert c. induction m as [|m IH]; intros c Hst Hm.
  - destruct (decide (Forall (fun p => p = Returned) (pcs c))) as [Hall|Hnot].
    + exists c. split; [apply rtc_refl|].
      intros i p Hi. exact (proj1 (Forall_lookup _ _) Hall i p Hi).
    + apply not_Forall_Exists in Hnot; [|intros p; apply _].
      apply Exists_exists in Hnot as (p & Hin & Hp).
      apply list_elem_of_lookup in Hin as [i Hi].
      destruct (proj2 (proj2 (proj2 (stage_safe before c Hst))) i p Hi Hp) as [c1 Hs].
      pose proof (step_measure c c1 Hs). lia.
  - destruct (decide (Forall (fun p => p = Returned) (pcs c))) as [Hall|Hnot].
    + exists c. split; [apply rtc_refl|].
      intros i p Hi. exact (proj1 (Forall_lookup _ _) Hall i p Hi).
    + apply not_Forall_Exists in Hnot; [|intros p; apply _].
      apply Exists_exists in Hnot as (p & Hin & Hp).
      apply list_elem_of_lookup in Hin as [i Hi].
      destruct (proj2 (proj2 (proj2 (stage_safe before c Hst))) i p Hi Hp) as [c1 Hs].
      pose proof (step_measure c c1 Hs).
      destruct (IH c1 (step_stage before c c1 Hst Hs)) as (c2 & Hrun & Hend); [lia|].
      exists c2. split; [now apply (rtc_l _ c c1)|exact Hend].
Qed.

End CloseTerminates.

(** X10.  In every world a process can reach, for every engine and any
    number k of goroutines calling Close() on it at once: no interleaving of
    their steps and the sealer's is longer than 3k + 1 steps; an interleaving
    that cannot go on has every caller back from Close(); and there is one
    that brings every caller back.  So every concurrent Close() returns. *)
Theorem Close_callers_all_return (w : World) (l : loc) (e : Frkhash) (k : nat) :
  reachable w -> heap w !! l = Some e ->
  (forall n c, nsteps Concurrent.step n (Concurrent.start e k) c -> n <= 3 * k + 1)
  /\ (forall c, rtc Concurrent.step (Concurrent.start e k) c ->
        (forall c', ~ Concurrent.step c c') ->
        Concurrent.pcs c = repeat Concurrent.Returned k)
  /\ exists c, rtc Concurrent.step (Concurrent.start e k) c
               /\ Concurrent.pcs c = repeat Concurrent.Returned k.
Proof.
  intros Hreach Hl.
  destruct (proj2 (reachable_invariant w Hreach) l e Hl) as (_ & _ & Hch).
  pose proof (start_stage e k Hch) as Hst.
  assert (Hrep : forall c, rtc Concurrent.step (Concurrent.start e k) c ->
            (forall i p, Concurrent.pcs c !! i = Some p -> p = Concurrent.Returned) ->
            Concurrent.pcs c = repeat Concurrent.Returned k).
  { intros c Hrun Hall. pose proof (steps_length _ _ Hrun) as Hlen.
    cbn [Concurrent.pcs Concurrent.start] in Hlen. rewrite repeat_length in Hlen.
    rewrite <- Hlen. clear Hlen Hrun.
    induction (Concurrent.pcs c) as [|p ps IH]; [reflexivity|].
    cbn [length repeat]. f_equal.
    - exact (Hall 0 p eq_refl).
    - apply IH. intros i q Hi. exact (Hall (S i) q Hi). }
  split; [|split].
  - intros n c Hn. pose proof (nsteps_measure n _ _ Hn).
    pose proof (start_measure e k). lia.
  - intros c Hrun Hstuck. apply (Hrep c Hrun).
    intros i p Hi.
    destruct (decide (p = Concurrent.Returned)) as [Hp|Hp]; [exact Hp|].
    pose proof (steps_stage _ _ c Hst Hrun) as Hstc.
    destruct (proj2 (proj2 (proj2 (stage_safe _ c Hstc))) i p Hi Hp) as [c1 Hs].
    now destruct (Hstuck c1).
  - destruct (run_to_end _ _ _ Hst (Nat.le_refl _)) as (c & Hrun & Hall).
    exists c. split; [exact Hrun|exact (Hrep c Hrun Hall)].
Qed.

Lemma Close_callers_all_return_witness :
  reachable testerWorld /\ heap testerWorld !! tester = Some testerEngine
  /\ exists c, rtc Concurrent.step (Concurrent.start testerEngine 2) c
               /\ Concurrent.pcs c = [Concurrent.Returned; Concurrent.Returned].
Proof.
  split; [exact reachable_tester|]. split; [exact reachable_tester_engine|].
  exact (proj2 (proj2 (Close_callers_all_return testerWorld tester testerEngine 2
                         reachable_tester reachable_tester_engine))).
Defined.

(** ** The package's shared engine *)

Lemma act_sharedFrkhash (a : Action) (w w' : World) :
  invariant w -> act a w = Ok w' -> sharedFrkhash w' = sharedFrkhash w.
Proof.
  intros Hinv H. destruct a; cbn [act] in H;
    try (injection H as <-; reflexivity).
  - destruct (heap w !! l) as [e0|] eqn:Hl0.
    + destruct (SetThreads_target w l e0 n Hinv Hl0)
        as (t & et & _ & _ & _ & _ & Hres).
      rewrite Hres in H. now injection H as <-.
    + unfold SetThreads in H. cbn [SetThreads_rec] in H.
      rewrite Hl0 in H. discriminate.
  - destruct (Threads l w); cbn in H; now simplify_eq.
  - unfold on_engine in H. destruct (heap w !! l); [|discriminate].
    destruct (step c f); cbn in H; now simplify_eq.
  - unfold on_engine in H. destruct (heap w !! l); [|discriminate].
    destruct (listen f); cbn in H; now simplify_eq.
  - unfold on_engine in H. destruct (heap w !! l); [|discriminate].
    destruct (mark x f); cbn in H; now simplify_eq.
Qed.

(** X11.  In every world a process can reach, the package variable
    [sharedFrkhash] still holds the address [init] gave it, and the engine
    there is the one [init] made: in ModeNormal, with a sealer and a meter,
    and with no shared engine of its own.  No constructor and no call
    reassigns the variable. *)
Theorem sharedFrkhash_is_fixed (w : World) :
  reachable w ->
  sharedFrkhash w = sharedFrkhash init
  /\ exists s e,
       sharedFrkhash w = Some s /\ heap w !! s = Some e
       /\ PowMode (config e) = ModeNormal /\ shared e = None
       /\ is_Some (remote e) /\ is_Some (hashrate e).
Proof.
  induction 1 as [|a w w' Hr IH Hact].
  - split; [reflexivity|].
    eexists _, _. split; [reflexivity|]. split; [apply lookup_insert_eq|].
    cbn. repeat split; eexists; reflexivity.
  - destruct IH as (Hsame & s & e & Hs & Hl & Hmode & Hsh & Hrem & Hrate).
    pose proof (reachable_invariant w Hr) as Hinv.
    pose proof (act_sharedFrkhash a w w' Hinv Hact) as Hkeep.
    split; [congruence|].
    destruct (act_keeps a w w' s e Hinv Hact Hl)
      as (e' & Hl' & Hc & Hs' & _ & _ & Hr' & Hh' & _).
    exists s, e'. split; [congruence|]. split; [exact Hl'|].
    split; [congruence|]. split; [congruence|].
    split.
    + destruct (remote e') eqn:E; [eauto|].
      destruct Hrem as [x Hx]. rewrite (proj1 Hr' eq_refl) in Hx. discriminate.
    + destruct (hashrate e') eqn:E; [eauto|].
      destruct Hrate as [x Hx]. rewrite (proj1 Hh' eq_refl) in Hx. discriminate.
Qed.

Lemma sharedFrkhash_is_fixed_witness :
  reachable sharedWorld /\ sharedFrkhash sharedWorld = sharedFrkhash init.
Proof.
  split; [exact reachable_sharedWorld|].
  exact (proj1 (sharedFrkhash_is_fixed sharedWorld reachable_sharedWorld)).
Defined.

(** ** [SetThreads] on a new engine *)

(** X12.  In every world a process can reach: on an engine just made by
    [New], SetThreads(n) returns and the engine's Threads() then returns n,
    unless the configuration asks for ModeShared; in that mode, and on an
    engine just made by [NewShared], the engine's own Threads() returns 0
    after the call and the count is found on the package's shared engine. *)
Theorem SetThreads_on_a_new_engine (w : World) (cfg : Config)
  (ep : list string) (nv : bool) (n : Z) :
  reachable w ->
  (exists w2,
     SetThreads (fst (New cfg ep nv w)) n (snd (New cfg ep nv w)) = Ok w2
     /\ Threads (fst (New cfg ep nv w)) w2
        = Ok (if bool_decide (PowMode cfg = ModeShared) then 0%Z else n)
     /\ (PowMode cfg = ModeShared ->
         exists s, sharedFrkhash w = Some s /\ Threads s w2 = Ok n))
  /\ (exists w2 s,
        SetThreads (fst (NewShared w)) n (snd (NewShared w)) = Ok w2
        /\ Threads (fst (NewShared w)) w2 = Ok 0%Z
        /\ sharedFrkhash w = Some s /\ Threads s w2 = Ok n).
Proof.
  intros Hreach.
  pose proof (reachable_invariant w Hreach) as Hinv.
  destruct (proj1 Hinv) as (s0 & e0 & Hs0 & Hl0 & Hnone0).
  assert (Hgen : forall (a : Action) (e1 : Frkhash),
            act a w = Ok (snd (alloc e1 w)) -> lock e1 = false -> threads e1 = 0%Z ->
            exists w2,
              SetThreads (fst (alloc e1 w)) n (snd (alloc e1 w)) = Ok w2
              /\ (shared e1 = None -> Threads (fst (alloc e1 w)) w2 = Ok n)
              /\ (shared e1 = Some s0 ->
                  Threads (fst (alloc e1 w)) w2 = Ok 0%Z /\ Threads s0 w2 = Ok n)).
  { intros a e1 Hact Hlock Hzero.
    pose proof (act_invariant a w _ Hinv Hact) as Hinv1.
    pose proof (alloc_lookup e1 w) as Hl1.
    destruct (SetThreads_target _ _ e1 n Hinv1 Hl1)
      as (t & et & Ht & Hnone & Hlk & Hcase & Hres).
    eexists. split; [exact Hres|]. split.
    - intros Hown. destruct Hcase as [[_ ->]|[Hsh _]]; [|congruence].
      now apply Threads_after_store.
    - intros Hsh. destruct Hcase as [[Hown _]|[Hsh' Hne]]; [congruence|].
      assert (t = s0) by congruence. subst t.
      split; [|now apply Threads_after_store].
      rewrite (Threads_lookup _ (fst (alloc e1 w)) e1); [now rewrite Hzero| |exact Hlock].
      change (heap (store ?l ?e ?w0)) with (<[l := e]> (heap w0)).
      rewrite lookup_insert_ne by assumption. exact Hl1. }
  split.
  - destruct (bool_decide (PowMode cfg = ModeShared)) eqn:Hmode.
    + destruct (Hgen (ANew cfg ep nv)
                  (set_remote (Some (startRemoteSealer ep nv))
                     (set_shared (sharedFrkhash w)
                        (mkFrkhash cfg 0 (Some {| receiver := false; delivered := 0 |})
                           (Some NewMeterForced) None None 0 0 false false))))
        as (w2 & Hres & _ & Hsh); [|reflexivity|reflexivity|].
      { cbn [act]. unfold New. now rewrite Hmode. }
      destruct Hsh as [H1 H2]; [exact Hs0|].
      exists w2. unfold New. rewrite Hmode.
      split; [exact Hres|]. split; [exact H1|].
      intros _. exists s0. split; [exact Hs0|exact H2].
    + destruct (Hgen (ANew cfg ep nv)
                  (set_remote (Some (startRemoteSealer ep nv))
                     (mkFrkhash cfg 0 (Some {| receiver := false; delivered := 0 |})
                        (Some NewMeterForced) None None 0 0 false false)))
        as (w2 & Hres & Hown & _); [|reflexivity|reflexivity|].
      { cbn [act]. unfold New. now rewrite Hmode. }
      exists w2. unfold New. rewrite Hmode.
      split; [exact Hres|]. split; [exact (Hown eq_refl)|].
      intros Hm. apply bool_decide_eq_false in Hmode. contradiction.
  - destruct (Hgen ANewShared (set_shared (sharedFrkhash w) zeroFrkhash))
      as (w2 & Hres & _ & Hsh); [reflexivity|reflexivity|reflexivity|].
    destruct Hsh as [H1 H2]; [exact Hs0|].
    exists w2, s0. unfold NewShared.
    split; [exact Hres|]. split; [exact H1|]. split; [exact Hs0|exact H2].
Qed.

Lemma SetThreads_on_a_new_engine_witness :
  reachable init
  /\ exists w2 s,
       SetThreads (fst (NewShared init)) 8 (snd (NewShared init)) = Ok w2
       /\ Threads (fst (NewShared init)) w2 = Ok 0%Z
       /\ sharedFrkhash init = Some s /\ Threads s w2 = Ok 8%Z.
Proof.
  split; [exact reach_init|].
  exact (proj2 (SetThreads_on_a_new_engine init fakeConfig [] false 8 reach_init)).
Defined.
